(** * AFL LLVM-mode instrumentation pass (llvm_mode/afl-llvm-pass.so.cc)

    A shallow embedding of the pass [AFLCoverage]: its constructor, which
    loads the whitelist of file-name suffixes, and [runOnModule], which
    decides the instrumentation ratio, filters every basic block through
    the whitelist, and inserts the edge-coverage sequence at the first
    insertion point of each admitted block.  The inserted sequence is kept
    as a list of instructions of a small IR whose execution is defined
    below, so that what the instrumented program does at run time can be
    stated and proved. *)

From Equations Require Import Equations.
From Stdlib Require Import ZArith List String Ascii Bool Arith Lia.
From Stdlib Require DecimalString.
Import ListNotations.

Local Open Scope string_scope.
Local Open Scope Z_scope.

(** ** Results of fallible steps

    [report_fatal_error] and [FATAL] never return: they end the compiler
    process.  A step that may end that way returns a [Result]. *)

Inductive Result (A : Type) : Type :=
| Ok (a : A)
| Fatal (msg : string).
Arguments Ok {A} a.
Arguments Fatal {A} msg.

(** ** The process environment

    What the pass reads from outside: environment variables ([getenv]),
    whether a descriptor is a terminal ([isatty]), and the files that can
    be opened for reading, with their content. *)

Record Env : Type := mkEnv {
  getenv : string -> option string;
  isatty : Z -> bool;
  file_content : string -> option string
}.

(** ** std::ifstream and std::getline

    The stream keeps what is still unread and the two state bits the
    constructor's loop depends on.  [operator bool] and [operator!] test
    [failbit] only. *)

Record ifstream : Type := mkStream {
  unread : string;
  eofbit : bool;
  failbit : bool
}.

Definition ifstream_open (env : Env) (path : string) : ifstream :=
  match file_content env path with
  | Some content => mkStream content false false
  | None => mkStream "" false true
  end.

Definition stream_ok (s : ifstream) : bool := negb (failbit s).

Definition newline : ascii := "010"%char.

(** The characters up to the first newline, and what follows that newline;
    [None] when the end of the file comes first. *)
Fixpoint extract_line (s : string) : string * option string :=
  match s with
  | EmptyString => (EmptyString, None)
  | String c rest =>
      if Ascii.eqb c newline then (EmptyString, Some rest)
      else let (l, k) := extract_line rest in (String c l, k)
  end.

(** [getline(stream, line)]: on a stream that is not good the sentry fails,
    [failbit] is set and [line] is left as it was.  Otherwise [line] is
    erased and filled up to the delimiter, which is extracted and dropped;
    reaching the end of the file sets [eofbit], and [failbit] too when
    nothing at all was extracted. *)
Definition getline (s : ifstream) (line : string) : ifstream * string :=
  if eofbit s || failbit s then (mkStream (unread s) (eofbit s) true, line)
  else
    match extract_line (unread s) with
    | (l, Some rest) => (mkStream rest false false, l)
    | (l, None) =>
        (mkStream EmptyString true (Nat.eqb (String.length l) 0), l)
    end.

(** What bounds the number of further successful [getline] calls. *)
Definition stream_measure (s : ifstream) : nat :=
  if failbit s then 0%nat
  else if eofbit s then 1%nat
  else (String.length (unread s) + 2)%nat.

(** The pass object: its only field is the whitelist. *)
Record AFLCoverage : Type := mkAFLCoverage {
  myWhitelist : list string
}.

Definition inspect {A : Type} (a : A) : {b : A | a = b} := exist _ a eq_refl.

(** The constructor's loop
<<
    while (fileStream) { myWhitelist.push_back(line); getline(fileStream, line); }
>> *)
Equations? whitelist_loop (fileStream : ifstream) (line : string)
    (wl : list string) : list string
    by wf (stream_measure fileStream) lt :=
  whitelist_loop fileStream line wl with inspect (stream_ok fileStream) := {
    | exist _ true Hok =>
        whitelist_loop (fst (getline fileStream line))
                       (snd (getline fileStream line))
                       (wl ++ [line]);
    | exist _ false _ => wl }.
Proof.
  assert (shorter : forall s l rest, extract_line s = (l, Some rest) ->
            (String.length rest < String.length s)%nat).
  { induction s as [|c s IH]; intros l rest; simpl.
    - discriminate.
    - destruct (Ascii.eqb c newline).
      + intros H; inversion H; subst; lia.
      + destruct (extract_line s) as [l' k] eqn:E.
        intros H; inversion H; subst.
        specialize (IH l' rest eq_refl). lia. }
  unfold stream_ok in Hok. unfold getline, stream_measure.
  destruct fileStream as [u e f]; simpl in *.
  destruct f; [discriminate|].
  destruct e; simpl; [lia|].
  destruct (extract_line u) as [l [rest|]] eqn:E; simpl.
  - apply shorter in E. lia.
  - destruct (Nat.eqb (String.length l) 0); lia.
Qed.

(** Lines 60-66: the first [getline], then the loop, on a whitelist that
    starts empty. *)
Definition load_whitelist (fileStream : ifstream) : list string :=
  let (fileStream1, line) := getline fileStream EmptyString in
  whitelist_loop fileStream1 line [].

(** [AFLCoverage::AFLCoverage()] *)
Definition AFLCoverage_new (env : Env) : Result AFLCoverage :=
  match getenv env "AFL_INST_WHITELIST" with
  | Some instWhiteListFilename =>
      let fileStream := ifstream_open env instWhiteListFilename in
      if negb (stream_ok fileStream)
      then Fatal "Unable to open AFL_INST_WHITELIST"
      else Ok (mkAFLCoverage (load_whitelist fileStream))
  | None => Ok (mkAFLCoverage [])
  end.

(** ** Debug locations

    A location node carries a line, a file name and the location the
    instruction was inlined at, which is the null node when it was not
    inlined.  An unknown [DebugLoc] is the null node; the accessors of a
    [DILocation] descriptor that wraps the null node answer the empty
    file name and line 0. *)

Inductive MDNode : Type :=
| MDNull
| MDLocation (line : Z) (filename : string) (inlinedAt : MDNode).

Definition DebugLoc : Type := MDNode.
Definition DILocation : Type := MDNode.

Definition isUnknown (Loc : DebugLoc) : bool :=
  match Loc with MDNull => true | MDLocation _ _ _ => false end.

Definition getOrigLocation (d : DILocation) : DILocation :=
  match d with MDLocation _ _ o => o | MDNull => MDNull end.

Definition getFilename (d : DILocation) : string :=
  match d with MDLocation _ f _ => f | MDNull => EmptyString end.

Definition getLineNumber (d : DILocation) : Z :=
  match d with MDLocation l _ _ => l | MDNull => 0 end.

Definition empty (s : string) : bool :=
  match s with EmptyString => true | String _ _ => false end.

(** ** The whitelist filter (runOnModule, lines 136-176) *)

(** [s.compare(pos, len, str)]: the characters of [s] from [pos], at most
    [len] of them, compared with [str]. *)
Definition std_compare (s : string) (pos len : nat) (str : string)
  : comparison :=
  String.compare (substring pos len s) str.

(** The test made on one whitelist entry [it] (lines 163-164). *)
Definition entry_matches (instFilename it : string) : bool :=
  if (String.length it <=? String.length instFilename)%nat then
    match std_compare instFilename
            (String.length instFilename - String.length it)
            (String.length it) it with
    | Eq => true
    | _ => false
    end
  else false.

(** The loop over the whitelist; it stops at the first match. *)
Fixpoint whitelist_scan (instFilename : string) (wl : list string) : bool :=
  match wl with
  | [] => false
  | it :: rest =>
      if entry_matches instFilename it then true
      else whitelist_scan instFilename rest
  end.

(** The file name and line the filter works with: those of the original
    location, or of the location itself when the original one has no
    file name. *)
Definition instLocation (Loc : DebugLoc) : string * Z :=
  let cDILoc : DILocation := Loc in
  let oDILoc := getOrigLocation cDILoc in
  let instLine := getLineNumber oDILoc in
  let instFilename := getFilename oDILoc in
  if empty instFilename
  then (getFilename cDILoc, getLineNumber cDILoc)
  else (instFilename, instLine).

(** The value of [instrumentBlock] when line 175 is reached. *)
Definition instrumentBlock (wl : list string) (Loc : DebugLoc) : bool :=
  if negb (isUnknown Loc) then
    let instFilename := fst (instLocation Loc) in
    if negb (empty instFilename) then whitelist_scan instFilename wl
    else false
  else false.

Definition empty_list {A : Type} (l : list A) : bool :=
  match l with [] => true | _ :: _ => false end.

(** Whether the block gets past line 176, that is, reaches the ratio
    test of line 178. *)
Definition passes_whitelist (pass : AFLCoverage) (Loc : DebugLoc) : bool :=
  if negb (empty_list (myWhitelist pass))
  then instrumentBlock (myWhitelist pass) Loc
  else true.

(** ** A small IR for the inserted code *)

Inductive IRType : Type :=
| Int8Ty
| Int16Ty
| Int64Ty
| PointerTy (pointee : IRType).

Definition bitwidth (ty : IRType) : Z :=
  match ty with
  | Int8Ty => 8
  | Int16Ty => 16
  | Int64Ty => 64
  | PointerTy _ => 64
  end.

(** The value of [z] as an unsigned integer of type [ty]. *)
Definition wrap (ty : IRType) (z : Z) : Z := z mod 2 ^ bitwidth ty.

Inductive Value : Type :=
| ConstantInt (ty : IRType) (v : Z)
| GlobalVariable (name : string) (valueTy : IRType)
| Reg (id : nat) (ty : IRType).

Definition type_of (v : Value) : IRType :=
  match v with
  | ConstantInt ty _ => ty
  | GlobalVariable _ valueTy => PointerTy valueTy
  | Reg _ ty => ty
  end.

Inductive Opcode : Type :=
| Load (ptr : Value)
| Store (val ptr : Value)
| ZExt (v : Value) (destTy : IRType)
| Xor (lhs rhs : Value)
| Add (lhs rhs : Value)
| GetElementPtr (ptr idx : Value)
| PHI (tag : nat)
| LandingPad (tag : nat)
| OtherInst (tag : nat).

Record Instruction : Type := mkInstruction {
  inst_id : nat;
  inst_op : Opcode;
  inst_nosanitize : bool;
  inst_dbg : DebugLoc
}.

Definition BasicBlock : Type := list Instruction.
Definition Function : Type := list BasicBlock.

Record Module : Type := mkModule {
  mod_globals : list (string * IRType);
  mod_functions : list Function;
  mod_next_id : nat
}.

(** [BB.getFirstInsertionPt()], as a position in the block: after the PHI
    nodes, and after the landing pad when one follows them. *)
Fixpoint getFirstNonPHI (BB : BasicBlock) : nat :=
  match BB with
  | i :: rest =>
      match inst_op i with
      | PHI _ => S (getFirstNonPHI rest)
      | _ => 0%nat
      end
  | [] => 0%nat
  end.

Definition getFirstInsertionPt (BB : BasicBlock) : nat :=
  let n := getFirstNonPHI BB in
  match nth_error BB n with
  | Some i => match inst_op i with LandingPad _ => S n | _ => n end
  | None => n
  end.

(** [IP->getDebugLoc()]; a well-formed block ends with a terminator, so
    the position is that of an instruction.  Past the end there is no
    instruction to ask, and the location is taken as unknown. *)
Definition debugLocAt (BB : BasicBlock) (IP : nat) : DebugLoc :=
  match nth_error BB IP with
  | Some i => inst_dbg i
  | None => MDNull
  end.

(** ** IRBuilder

    The builder appends instructions at its insertion point, gives each a
    fresh identifier and the debug location of the instruction it was
    set up at.  Its calls thread the builder through a state monad. *)

Record IRBuilder : Type := mkIRBuilder {
  irb_next : nat;
  irb_dbg : DebugLoc;
  irb_inserted : list Instruction
}.

Definition IRB (A : Type) : Type := IRBuilder -> A * IRBuilder.

Definition irb_ret {A : Type} (a : A) : IRB A := fun b => (a, b).

Definition irb_bind {A B : Type} (m : IRB A) (k : A -> IRB B) : IRB B :=
  fun b => let (a, b') := m b in k a b'.

Notation "x <- m ;; k" := (irb_bind m (fun x => k))
  (at level 61, m at next level, right associativity).
Notation "m ;;; k" := (irb_bind m (fun _ => k))
  (at level 61, right associativity).

Definition Insert (op : Opcode) : IRB nat :=
  fun b =>
    (irb_next b,
     mkIRBuilder (S (irb_next b)) (irb_dbg b)
       (irb_inserted b ++ [mkInstruction (irb_next b) op false (irb_dbg b)])).

Definition pointee (ty : IRType) : IRType :=
  match ty with PointerTy t => t | t => t end.

Definition inst_of (v : Value) : nat :=
  match v with Reg id _ => id | _ => 0%nat end.

Definition CreateLoad (ptr : Value) : IRB Value :=
  id <- Insert (Load ptr) ;; irb_ret (Reg id (pointee (type_of ptr))).

Definition CreateStore (val ptr : Value) : IRB nat :=
  Insert (Store val ptr).

Definition CreateZExt (v : Value) (destTy : IRType) : IRB Value :=
  id <- Insert (ZExt v destTy) ;; irb_ret (Reg id destTy).

Definition CreateXor (lhs rhs : Value) : IRB Value :=
  id <- Insert (Xor lhs rhs) ;; irb_ret (Reg id (type_of lhs)).

Definition CreateAdd (lhs rhs : Value) : IRB Value :=
  id <- Insert (Add lhs rhs) ;; irb_ret (Reg id (type_of lhs)).

Definition CreateGEP (ptr idx : Value) : IRB Value :=
  id <- Insert (GetElementPtr ptr idx) ;; irb_ret (Reg id (type_of ptr)).

(** [I->setMetadata(M.getMDKindID("nosanitize"), MDNode::get(C, None))] *)
Definition setMetadata_nosanitize (id : nat) : IRB unit :=
  fun b =>
    (tt,
     mkIRBuilder (irb_next b) (irb_dbg b)
       (map (fun i =>
               if Nat.eqb (inst_id i) id
               then mkInstruction (inst_id i) (inst_op i) true (inst_dbg i)
               else i)
            (irb_inserted b))).

(** The two globals of lines 119-124. *)
Definition AFLMapPtr : Value :=
  GlobalVariable "__afl_area_ptr" (PointerTy Int8Ty).
Definition AFLPrevLoc : Value :=
  GlobalVariable "__afl_prev_loc" Int16Ty.

(** Lines 183-210: what is built for a block that got [cur_loc]. *)
Definition insert_coverage (cur_loc : Z) : IRB unit :=
  let CurLoc := ConstantInt Int64Ty cur_loc in
  (* Load prev_loc *)
  PrevLoc <- CreateLoad AFLPrevLoc ;;
  setMetadata_nosanitize (inst_of PrevLoc) ;;;
  PrevLocCasted <- CreateZExt PrevLoc Int64Ty ;;
  (* Load SHM pointer *)
  MapPtr <- CreateLoad AFLMapPtr ;;
  setMetadata_nosanitize (inst_of MapPtr) ;;;
  EdgeId <- CreateXor PrevLocCasted CurLoc ;;
  MapPtrIdx <- CreateGEP MapPtr EdgeId ;;
  (* Update bitmap *)
  Counter <- CreateLoad MapPtrIdx ;;
  setMetadata_nosanitize (inst_of Counter) ;;;
  Incr <- CreateAdd Counter (ConstantInt Int8Ty 1) ;;
  CounterStore <- CreateStore Incr MapPtrIdx ;;
  setMetadata_nosanitize CounterStore ;;;
  (* Set prev_loc to cur_loc >> 1 *)
  Store <- CreateStore (ConstantInt Int16Ty (Z.shiftr cur_loc 1)) AFLPrevLoc ;;
  setMetadata_nosanitize Store.

(** ** Execution of the inserted code

    The machine has the registers of the running function, the two
    globals, looked up by name, and the byte-addressed memory the bitmap
    lives in.  The globals are kept apart from that memory: the run time
    that maps the bitmap does not map it over them. *)

Record Machine : Type := mkMachine {
  regs : nat -> Z;
  globals : string -> Z;
  memory : Z -> Z
}.

Definition set_reg (m : Machine) (id : nat) (v : Z) : Machine :=
  mkMachine (fun r => if Nat.eqb r id then v else regs m r)
            (globals m) (memory m).

Definition set_global (m : Machine) (name : string) (v : Z) : Machine :=
  mkMachine (regs m)
            (fun n => if String.eqb n name then v else globals m n)
            (memory m).

Definition set_byte (m : Machine) (addr v : Z) : Machine :=
  mkMachine (regs m) (globals m)
            (fun a => if Z.eqb a addr then v else memory m a).

Definition eval (m : Machine) (v : Value) : option Z :=
  match v with
  | ConstantInt ty z => Some (wrap ty z)
  | Reg id _ => Some (regs m id)
  | GlobalVariable _ _ => None
  end.

(** A 64-bit index read as a signed number, as [getelementptr] does. *)
Definition signed64 (z : Z) : Z :=
  if z <? 2 ^ 63 then z else z - 2 ^ 64.

Definition sizeof (ty : IRType) : Z :=
  match ty with
  | Int8Ty => 1
  | Int16Ty => 2
  | Int64Ty => 8
  | PointerTy _ => 8
  end.

Definition exec_inst (m : Machine) (i : Instruction) : option Machine :=
  match inst_op i with
  | Load (GlobalVariable n ty) =>
      Some (set_reg m (inst_id i) (wrap ty (globals m n)))
  | Load (Reg p (PointerTy Int8Ty)) =>
      Some (set_reg m (inst_id i) (wrap Int8Ty (memory m (regs m p))))
  | Load _ => None
  | Store val (GlobalVariable n ty) =>
      match eval m val with
      | Some v => Some (set_global m n (wrap ty v))
      | None => None
      end
  | Store val (Reg p (PointerTy Int8Ty)) =>
      match eval m val with
      | Some v => Some (set_byte m (regs m p) (wrap Int8Ty v))
      | None => None
      end
  | Store _ _ => None
  | ZExt v destTy =>
      match eval m v with
      | Some x => Some (set_reg m (inst_id i) (wrap destTy x))
      | None => None
      end
  | Xor lhs rhs =>
      match eval m lhs, eval m rhs with
      | Some x, Some y => Some (set_reg m (inst_id i) (Z.lxor x y))
      | _, _ => None
      end
  | Add lhs rhs =>
      match eval m lhs, eval m rhs with
      | Some x, Some y =>
          Some (set_reg m (inst_id i) (wrap (type_of lhs) (x + y)))
      | _, _ => None
      end
  | GetElementPtr ptr idx =>
      match eval m ptr, eval m idx with
      | Some p, Some n =>
          Some (set_reg m (inst_id i)
                  (wrap (type_of ptr)
                     (p + signed64 n * sizeof (pointee (type_of ptr)))))
      | _, _ => None
      end
  | PHI _ | LandingPad _ | OtherInst _ => None
  end.

Fixpoint exec (m : Machine) (code : list Instruction) : option Machine :=
  match code with
  | [] => Some m
  | i :: rest =>
      match exec_inst m i with
      | Some m' => exec m' rest
      | None => None
      end
  end.

(** The previous-location register and the bitmap cell at an offset, as
    the instrumented program sees them. *)
Definition prev_loc (m : Machine) : Z := globals m "__afl_prev_loc".
Definition area_ptr (m : Machine) : Z := globals m "__afl_area_ptr".
Definition cell_addr (m : Machine) (offset : Z) : Z :=
  (area_ptr m + offset) mod 2 ^ 64.
Definition bitmap (m : Machine) (offset : Z) : Z :=
  memory m (cell_addr m offset).

(** The instructions built for [cur_loc] by a builder that starts at
    identifier [next] with debug location [Loc]. *)
Definition coverage_code (cur_loc : Z) (next : nat) (Loc : DebugLoc)
  : list Instruction :=
  irb_inserted (snd (insert_coverage cur_loc (mkIRBuilder next Loc []))).

(** ** Random numbers and the map size *)

(** The pseudo-random source: the sequence of values it will hand out and
    how many were taken so far. *)
Record Rand : Type := mkRand {
  tape : nat -> Z;
  cursor : nat
}.

(** Modelled from the spec: the macro [R] is defined in ../types.h, which
    is not among the sources.  The spec has [R(x)] draw a value in
    [[0, x)] from the process-local pseudo-random source ("draw cur_loc
    uniformly from [0, MAP_SIZE)", "a uniform value in [0,100)"): the
    next value of the source, reduced modulo [x]. *)
Definition R (x : Z) (g : Rand) : Z * Rand :=
  (tape g (cursor g) mod x, mkRand (tape g) (S (cursor g))).

(** Modelled from the spec: [MAP_SIZE] is defined in ../config.h, which is
    not among the sources.  The spec fixes [MAP_SIZE = 65536], a power of
    two. *)
Definition MAP_SIZE_POW2 : Z := 16.
Definition MAP_SIZE : Z := Z.shiftl 1 MAP_SIZE_POW2.

(** ** sscanf(str, "%u", &x)

    The C library's conversion: white space is skipped, an optional sign
    is read, then decimal digits, at least one; what follows the digits is
    left unread.  The result is [None] when nothing was converted (the call
    returns 0 or EOF) and the stored value otherwise.  The digits are
    converted as by [strtoul]: a value past [ULONG_MAX] becomes
    [ULONG_MAX], a minus sign negates modulo [2^64]; the store into the
    [unsigned int] keeps the low 32 bits (glibc, LP64). *)

Definition isspace (c : ascii) : bool :=
  let n := nat_of_ascii c in
  Nat.eqb n 32 || (Nat.leb 9 n && Nat.leb n 13).

Definition digit_value (c : ascii) : option Z :=
  let n := nat_of_ascii c in
  if Nat.leb 48 n && Nat.leb n 57 then Some (Z.of_nat n - 48) else None.

Fixpoint skip_space (s : string) : string :=
  match s with
  | String c rest => if isspace c then skip_space rest else s
  | EmptyString => s
  end.

(** The value of the leading digits of [s], after the digits whose value
    is [acc]; [seen] tells whether a digit was read already. *)
Fixpoint scan_digits (s : string) (acc : Z) (seen : bool) : option Z :=
  match s with
  | String c rest =>
      match digit_value c with
      | Some d => scan_digits rest (10 * acc + d) true
      | None => if seen then Some acc else None
      end
  | EmptyString => if seen then Some acc else None
  end.

Definition ULONG_MAX : Z := 2 ^ 64 - 1.

Definition strtoul_value (negative : bool) (v : Z) : Z :=
  if ULONG_MAX <? v then ULONG_MAX
  else if negative then (- v) mod 2 ^ 64
  else v.

Definition sscanf_u (str : string) : option Z :=
  match skip_space str with
  | EmptyString => None
  | String c rest =>
      let negative := Ascii.eqb c "-" in
      let digits :=
        if Ascii.eqb c "-" || Ascii.eqb c "+" then rest else String c rest in
      match scan_digits digits 0 false with
      | Some v => Some (strtoul_value negative v mod 2 ^ 32)
      | None => None
      end
  end.

(** ** runOnModule *)

(** Lines 106-115: the instrumentation ratio. *)
Definition decide_inst_ratio (env : Env) : Result Z :=
  let inst_ratio_str := getenv env "AFL_INST_RATIO" in
  let inst_ratio := 100 in
  match inst_ratio_str with
  | Some str =>
      match sscanf_u str with
      | Some inst_ratio =>
          if (inst_ratio =? 0) || (100 <? inst_ratio)
          then Fatal "Bad value of AFL_INST_RATIO (must be between 1 and 100)"
          else Ok inst_ratio
      | None =>
          Fatal "Bad value of AFL_INST_RATIO (must be between 1 and 100)"
      end
  | None => Ok inst_ratio
  end.

(** What became of a block; kept next to the rewritten block so that the
    statements below can speak of it. *)
Inductive Decision : Type :=
| NotWhitelisted
| RatioSkipped
| Instrumented (cur_loc : Z).

(** What the loop over the blocks carries along. *)
Record LoopState : Type := mkLoopState {
  ls_rand : Rand;
  ls_next_id : nat;
  inst_blocks : nat
}.

Definition insert_at (BB : BasicBlock) (IP : nat) (code : list Instruction)
  : BasicBlock :=
  (firstn IP BB ++ code ++ skipn IP BB)%list.

(** Lines 178-212: the ratio test and, for a block that passes it, the
    choice of [cur_loc] and the insertion at [IP]. *)
Definition assign_and_insert (inst_ratio : Z) (BB : BasicBlock) (IP : nat)
    (IRB0 : IRBuilder) (st : LoopState)
  : BasicBlock * Decision * LoopState :=
  let (r, g1) := R 100 (ls_rand st) in
  if inst_ratio <=? r
  then (BB, RatioSkipped, mkLoopState g1 (ls_next_id st) (inst_blocks st))
  else
    (* Make up cur_loc *)
    let (cur_loc, g2) := R MAP_SIZE g1 in
    let (_, IRB1) := insert_coverage cur_loc IRB0 in
    (insert_at BB IP (irb_inserted IRB1),
     Instrumented cur_loc,
     mkLoopState g2 (irb_next IRB1) (S (inst_blocks st))).

(** The body of the loop, lines 133-212, for one block. *)
Definition instrument_block (pass : AFLCoverage) (inst_ratio : Z)
    (BB : BasicBlock) (st : LoopState)
  : BasicBlock * Decision * LoopState :=
  let IP := getFirstInsertionPt BB in
  let IRB0 := mkIRBuilder (ls_next_id st) (debugLocAt BB IP) [] in
  if negb (passes_whitelist pass (debugLocAt BB IP))
  then (BB, NotWhitelisted, st)
  else assign_and_insert inst_ratio BB IP IRB0 st.

(** The loop over the blocks of a function. *)
Fixpoint instrument_blocks (pass : AFLCoverage) (inst_ratio : Z)
    (BBs : list BasicBlock) (st : LoopState)
  : list BasicBlock * list Decision * LoopState :=
  match BBs with
  | [] => ([], [], st)
  | BB :: rest =>
      let '(BB', d, st1) := instrument_block pass inst_ratio BB st in
      let '(rest', ds, st2) := instrument_blocks pass inst_ratio rest st1 in
      (BB' :: rest', d :: ds, st2)
  end.

(** The loop over the functions of the module; the decisions are listed
    in the order the blocks are visited. *)
Fixpoint instrument_functions (pass : AFLCoverage) (inst_ratio : Z)
    (Fs : list Function) (st : LoopState)
  : list Function * list Decision * LoopState :=
  match Fs with
  | [] => ([], [], st)
  | F :: rest =>
      let '(F', ds1, st1) := instrument_blocks pass inst_ratio F st in
      let '(rest', ds2, st2) := instrument_functions pass inst_ratio rest st1 in
      (F' :: rest', (ds1 ++ ds2)%list, st2)
  end.

(** What the pass prints ([SAYF], [WARNF], [OKF]). *)
Inductive Message : Type :=
| Banner
| NoTargets
| InstrumentedLocations (inst_blocks : nat) (hardened : bool) (inst_ratio : Z).

(** How a run of the pass ends: what it returned or the fatal error that
    ended it, the module as it stands then, what was printed, the
    decisions taken and the random source left. *)
Record Outcome : Type := mkOutcome {
  returned : Result bool;
  out_module : Module;
  printed : list Message;
  decisions : list Decision;
  out_rand : Rand
}.

Definition is_some {A : Type} (o : option A) : bool :=
  match o with Some _ => true | None => false end.

(** [AFLCoverage::runOnModule] *)
Definition runOnModule (pass : AFLCoverage) (env : Env) (g : Rand)
    (M : Module) : Outcome :=
  (* Show a banner *)
  let be_quiet := negb (isatty env 2 && negb (is_some (getenv env "AFL_QUIET"))) in
  let log0 := if be_quiet then [] else [Banner] in
  (* Decide instrumentation ratio *)
  match decide_inst_ratio env with
  | Fatal msg => mkOutcome (Fatal msg) M log0 [] g
  | Ok inst_ratio =>
      (* Get globals for the SHM region and the previous location.  The
         two names are taken to be free in the module; LLVM gives the new
         global another name when one of them is taken. *)
      let globals' :=
        (mod_globals M ++ [("__afl_area_ptr", PointerTy Int8Ty);
                           ("__afl_prev_loc", Int16Ty)])%list in
      (* Instrument all the things! *)
      let '(Fs, ds, st) :=
        instrument_functions pass inst_ratio (mod_functions M)
          (mkLoopState g (mod_next_id M) 0) in
      (* Say something nice. *)
      let log1 :=
        if be_quiet then log0
        else if Nat.eqb (inst_blocks st) 0 then (log0 ++ [NoTargets])%list
        else (log0 ++ [InstrumentedLocations (inst_blocks st)
                         (is_some (getenv env "AFL_HARDEN")) inst_ratio])%list in
      mkOutcome (Ok true) (mkModule globals' Fs (ls_next_id st)) log1 ds
                (ls_rand st)
  end.

(** The pass as the compiler runs it: [registerAFLPass] builds the pass
    object, then the pass manager calls [runOnModule].  A fatal error in
    the constructor ends the compilation with the module untouched. *)
Definition run_pass (env : Env) (g : Rand) (M : Module) : Outcome :=
  match AFLCoverage_new env with
  | Fatal msg => mkOutcome (Fatal msg) M [] [] g
  | Ok pass => runOnModule pass env g M
  end.

(** All the blocks of a module, in the order the pass visits them. *)
Definition module_blocks (M : Module) : list BasicBlock :=
  List.concat (mod_functions M).

(** The location the filter looks at for a block. *)
Definition block_loc (BB : BasicBlock) : DebugLoc :=
  debugLocAt BB (getFirstInsertionPt BB).

(** ** Notions the statements use *)

(** [s] is a suffix of [f], in the spec's words: [f] ends with [s]. *)
Definition is_suffix (s f : string) : Prop :=
  exists pre : string, f = pre ++ s.

(** The file content has an empty line: a newline that comes first in the
    file or right after another newline. *)
Definition has_empty_line (content : string) : Prop :=
  exists pre post : string,
    content = pre ++ String newline post /\
    (pre = EmptyString \/
     exists pre', pre = pre' ++ String newline EmptyString).

(** The decision taken for a block. *)
Definition decision_of (r : BasicBlock * Decision * LoopState) : Decision :=
  snd (fst r).

(** An environment given by its variables and its readable files. *)
Fixpoint lookup (k : string) (l : list (string * string)) : option string :=
  match l with
  | [] => None
  | (k', v) :: rest => if String.eqb k k' then Some v else lookup k rest
  end.

Definition env_of (vars files : list (string * string)) : Env :=
  mkEnv (fun name => lookup name vars)
        (fun _ => false)
        (fun path => lookup path files).

(** A random source that hands out 0, 1, 2, ... *)
Definition counting_rand : Rand := mkRand Z.of_nat 0.

(** A machine with the given previous location and bitmap pointer, and
    zero everywhere else. *)
Definition machine_of (prev ptr : Z) : Machine :=
  mkMachine (fun _ => 0)
            (fun n => if String.eqb n "__afl_prev_loc" then prev
                      else if String.eqb n "__afl_area_ptr" then ptr
                      else 0)
            (fun _ => 0).

(** A block of one instruction with the given debug location. *)
Definition block_at (Loc : DebugLoc) : BasicBlock :=
  [mkInstruction 0 (OtherInst 0) false Loc].

(** The offset of the bitmap cell an instrumented block updates. *)
Definition edge_id (cur_loc prev : Z) : Z := Z.lxor prev cur_loc.

(** ** Notions the further statements use *)

(** No character of [s] is a newline. *)
Fixpoint no_newline (s : string) : bool :=
  match s with
  | EmptyString => true
  | String c rest => negb (Ascii.eqb c newline) && no_newline rest
  end.

(** The lines [ls], each followed by a newline. *)
Fixpoint terminated_lines (ls : list string) : string :=
  match ls with
  | [] => EmptyString
  | l :: rest => l ++ String newline (terminated_lines rest)
  end.

(** How many blocks of a run were instrumented. *)
Fixpoint count_instrumented (ds : list Decision) : nat :=
  match ds with
  | [] => 0%nat
  | Instrumented _ :: rest => S (count_instrumented rest)
  | _ :: rest => count_instrumented rest
  end.

(** Loads and stores. *)
Definition is_memory_access (op : Opcode) : bool :=
  match op with
  | Load _ | Store _ _ => true
  | _ => false
  end.

(** PHI nodes and landing pads, which stay in front of inserted code. *)
Definition is_PHI (i : Instruction) : bool :=
  match inst_op i with PHI _ => true | _ => false end.

Definition is_LandingPad (i : Instruction) : bool :=
  match inst_op i with LandingPad _ => true | _ => false end.

(** What relates a block to the block the loop body leaves in its place. *)
Definition unchanged_or_instrumented (BB : BasicBlock)
    (out : BasicBlock * Decision) : Prop :=
  match snd out with
  | Instrumented cur_loc =>
      exists next,
        fst out = insert_at BB (getFirstInsertionPt BB)
                    (coverage_code cur_loc next (block_loc BB))
  | _ => fst out = BB
  end.

(** The bitmap offsets updated when instrumented blocks with the given
    [cur_loc]s run one after the other, the first of them with previous
    location [prev]. *)
Fixpoint edges_of (prev : Z) (cur_locs : list Z) : list Z :=
  match cur_locs with
  | [] => []
  | c :: rest => edge_id c prev :: edges_of (Z.shiftr c 1) rest
  end.

(** The inserted code of the blocks of a path, in the order they run;
    a block is given by its [cur_loc] and by the identifier and debug
    location its code was built with. *)
Definition path_code (path : list (Z * nat * DebugLoc))
  : list Instruction :=
  flat_map (fun b => coverage_code (fst (fst b)) (snd (fst b)) (snd b)) path.

(** How many times [o] occurs in [l]. *)
Definition hits (o : Z) (l : list Z) : Z :=
  Z.of_nat (count_occ Z.eq_dec l o).

(** * Properties *)

(** ** Strings *)

Lemma substring_0_all (s : string) :
  substring 0 (String.length s) s = s.
Proof.
  induction s as [|c s IH]; simpl; [reflexivity | now rewrite IH].
Qed.

Lemma substring_skip_prefix (pre s : string) :
  substring (String.length pre) (String.length s) (pre ++ s) = s.
Proof.
  induction pre as [|c pre IH]; simpl.
  - apply substring_0_all.
  - exact IH.
Qed.

Lemma length_app (s1 s2 : string) :
  String.length (s1 ++ s2) = (String.length s1 + String.length s2)%nat.
Proof.
  induction s1 as [|c s1 IH]; simpl; [reflexivity | now rewrite IH].
Qed.

Lemma substring_split (n : nat) (s : string) :
  (n <= String.length s)%nat ->
  s = substring 0 n s ++ substring n (String.length s - n) s.
Proof.
  revert s; induction n as [|n IH]; intros s Hn.
  - rewrite Nat.sub_0_r, substring_0_all.
    destruct s; reflexivity.
  - destruct s as [|c s]; simpl in *; [lia|].
    rewrite <- IH by lia. reflexivity.
Qed.

Lemma string_compare_refl (s : string) : String.compare s s = Eq.
Proof.
  induction s as [|c s IH]; simpl; [reflexivity|].
  unfold Ascii.compare. rewrite N.compare_refl. exact IH.
Qed.

Lemma entry_matches_suffix (f it : string) :
  entry_matches f it = true <-> is_suffix it f.
Proof.
  unfold entry_matches, std_compare, is_suffix. split.
  - destruct (Nat.leb_spec (String.length it) (String.length f)) as [Hle|Hlt];
      [|discriminate].
    destruct (String.compare _ it) eqn:E; try discriminate.
    intros _. apply String.compare_eq_iff in E.
    exists (substring 0 (String.length f - String.length it) f).
    pose proof (substring_split (String.length f - String.length it) f) as H.
    replace (String.length f - (String.length f - String.length it))%nat
      with (String.length it) in H by lia.
    rewrite E in H. apply H. lia.
  - intros [pre ->].
    rewrite length_app.
    destruct (Nat.leb_spec (String.length it)
                (String.length pre + String.length it)) as [Hle|Hlt]; [|lia].
    replace (String.length pre + String.length it - String.length it)%nat
      with (String.length pre) by lia.
    rewrite substring_skip_prefix.
    now rewrite string_compare_refl.
Qed.

Lemma entry_matches_longer (f it : string) :
  (String.length f < String.length it)%nat -> entry_matches f it = false.
Proof.
  unfold entry_matches. intros H.
  destruct (Nat.leb_spec (String.length it) (String.length f)); [lia|].
  reflexivity.
Qed.

Lemma entry_matches_empty (f : string) : entry_matches f EmptyString = true.
Proof.
  apply entry_matches_suffix. exists f.
  induction f as [|c f IH]; simpl; [reflexivity | now rewrite <- IH].
Qed.

Lemma whitelist_scan_true (f : string) (wl : list string) :
  whitelist_scan f wl = true <->
  exists it, In it wl /\ entry_matches f it = true.
Proof.
  induction wl as [|it wl IH]; simpl.
  - split; [discriminate | intros [? [[] _]]].
  - destruct (entry_matches f it) eqn:E.
    + split; [|reflexivity]. intros _. exists it. auto.
    + rewrite IH. split.
      * intros [x [Hin Hx]]. exists x. auto.
      * intros [x [[->|Hin] Hx]]; [congruence|]. exists x. auto.
Qed.

(** ** The filter and the loop body *)

Lemma instrument_block_skipped (pass : AFLCoverage) (inst_ratio : Z)
    (BB : BasicBlock) (st : LoopState) :
  passes_whitelist pass (block_loc BB) = false ->
  instrument_block pass inst_ratio BB st = (BB, NotWhitelisted, st).
Proof.
  unfold instrument_block, block_loc. intros ->. reflexivity.
Qed.

Lemma instrument_block_passed (pass : AFLCoverage) (inst_ratio : Z)
    (BB : BasicBlock) (st : LoopState) :
  passes_whitelist pass (block_loc BB) = true ->
  instrument_block pass inst_ratio BB st =
  assign_and_insert inst_ratio BB (getFirstInsertionPt BB)
    (mkIRBuilder (ls_next_id st) (block_loc BB) []) st.
Proof.
  unfold instrument_block, block_loc. intros ->. reflexivity.
Qed.

Lemma assign_and_insert_decision (inst_ratio : Z) (BB : BasicBlock)
    (IP : nat) (IRB0 : IRBuilder) (st : LoopState) :
  decision_of (assign_and_insert inst_ratio BB IP IRB0 st) <> NotWhitelisted.
Proof.
  cbv beta iota delta [assign_and_insert decision_of R].
  match goal with |- context [Z.leb inst_ratio ?x] =>
    destruct (Z.leb inst_ratio x) end; [discriminate|].
  destruct (insert_coverage _ IRB0); discriminate.
Qed.

Lemma eligible_iff_decision (pass : AFLCoverage) (inst_ratio : Z)
    (BB : BasicBlock) (st : LoopState) :
  passes_whitelist pass (block_loc BB) = true <->
  decision_of (instrument_block pass inst_ratio BB st) <> NotWhitelisted.
Proof.
  destruct (passes_whitelist pass (block_loc BB)) eqn:E.
  - rewrite instrument_block_passed by assumption.
    split; [intros _; apply assign_and_insert_decision | reflexivity].
  - rewrite instrument_block_skipped by assumption.
    unfold decision_of; simpl. split; [discriminate | congruence].
Qed.

(** ** The loops over blocks and functions *)

Section Decisions.

Variable pass : AFLCoverage.
Variable inst_ratio : Z.
Variable P : BasicBlock -> Decision -> Prop.
Hypothesis block_ok :
  forall BB st, P BB (decision_of (instrument_block pass inst_ratio BB st)).

Lemma instrument_blocks_decisions (BBs : list BasicBlock) :
  forall st,
    Forall2 P BBs (snd (fst (instrument_blocks pass inst_ratio BBs st))).
Proof.
  induction BBs as [|BB rest IH]; intros st; simpl.
  - constructor.
  - pose proof (block_ok BB st) as Hb.
    destruct (instrument_block pass inst_ratio BB st) as [[BB' d] st1].
    specialize (IH st1).
    destruct (instrument_blocks pass inst_ratio rest st1) as [[rest' ds] st2].
    simpl in *. constructor; assumption.
Qed.

Lemma instrument_functions_decisions (Fs : list Function) :
  forall st,
    Forall2 P (List.concat Fs)
      (snd (fst (instrument_functions pass inst_ratio Fs st))).
Proof.
  induction Fs as [|F rest IH]; intros st; simpl.
  - constructor.
  - pose proof (instrument_blocks_decisions F st) as Hb.
    destruct (instrument_blocks pass inst_ratio F st) as [[F' ds1] st1].
    specialize (IH st1).
    destruct (instrument_functions pass inst_ratio rest st1)
      as [[rest' ds2] st2].
    simpl in *. apply Forall2_app; assumption.
Qed.

End Decisions.

Lemma runOnModule_decisions (pass : AFLCoverage) (env : Env) (g : Rand)
    (M : Module) (inst_ratio : Z) (P : BasicBlock -> Decision -> Prop) :
  decide_inst_ratio env = Ok inst_ratio ->
  (forall BB st, P BB (decision_of (instrument_block pass inst_ratio BB st))) ->
  returned (runOnModule pass env g M) = Ok true /\
  Forall2 P (module_blocks M) (decisions (runOnModule pass env g M)).
Proof.
  intros Hr HP. unfold runOnModule, module_blocks. rewrite Hr.
  pose proof (instrument_functions_decisions pass inst_ratio P HP
                (mod_functions M) (mkLoopState g (mod_next_id M) 0)) as H.
  destruct (instrument_functions pass inst_ratio (mod_functions M) _)
    as [[Fs ds] st].
  simpl in *. split; [reflexivity | exact H].
Qed.

Lemma runOnModule_fatal (pass : AFLCoverage) (env : Env) (g : Rand)
    (M : Module) (msg : string) :
  decide_inst_ratio env = Fatal msg ->
  returned (runOnModule pass env g M) = Fatal msg /\
  out_module (runOnModule pass env g M) = M /\
  decisions (runOnModule pass env g M) = [].
Proof.
  intros Hr. unfold runOnModule. rewrite Hr. simpl. auto.
Qed.

Lemma decide_inst_ratio_total (env : Env) :
  (exists r, decide_inst_ratio env = Ok r) \/
  (exists msg, decide_inst_ratio env = Fatal msg).
Proof.
  destruct (decide_inst_ratio env); eauto.
Qed.

Lemma Forall2_right {A B : Type} (Q : B -> Prop) (l1 : list A) (l2 : list B) :
  Forall2 (fun _ d => Q d) l1 l2 -> Forall Q l2.
Proof.
  induction 1; constructor; assumption.
Qed.

(** ** The whitelist filter *)

Lemma instrumentBlock_unresolved (wl : list string) (Loc : DebugLoc) :
  isUnknown Loc = true \/ fst (instLocation Loc) = EmptyString ->
  instrumentBlock wl Loc = false.
Proof.
  unfold instrumentBlock. intros [->| ->]; simpl; [reflexivity|].
  destruct (isUnknown Loc); reflexivity.
Qed.

Lemma instrumentBlock_resolved (wl : list string) (Loc : DebugLoc) (f : string) :
  isUnknown Loc = false ->
  fst (instLocation Loc) = f ->
  f <> EmptyString ->
  instrumentBlock wl Loc = whitelist_scan f wl.
Proof.
  unfold instrumentBlock. intros -> -> Hf; simpl.
  destruct f; [congruence | reflexivity].
Qed.

(** Under a non-empty whitelist a block whose location is unknown, or
    whose file names are all empty, is left as it is. *)
Lemma unresolved_block_skipped (pass : AFLCoverage) (inst_ratio : Z)
    (BB : BasicBlock) (st : LoopState) :
  myWhitelist pass <> [] ->
  isUnknown (block_loc BB) = true \/
  fst (instLocation (block_loc BB)) = EmptyString ->
  instrument_block pass inst_ratio BB st = (BB, NotWhitelisted, st).
Proof.
  intros Hne Hu. apply instrument_block_skipped.
  unfold passes_whitelist.
  destruct (myWhitelist pass) as [|w wl] eqn:E; [congruence|].
  cbn [empty_list negb]. now apply instrumentBlock_unresolved.
Qed.

(** C1, as the code has it: under the whitelist [["foo.c"]], a block whose
    insertion point has an unknown debug location, and a block whose
    location has no file name at all, are not eligible: the loop body
    leaves them as they are and never reaches the ratio test.  The comment
    of lines 139-141 announces the opposite ("just instrument the block if
    we are not able to determine our location"). *)
Theorem C1_unresolved_location_is_skipped :
  let pass := mkAFLCoverage ["foo.c"] in
  let unknownBB := block_at MDNull in
  let namelessBB :=
    block_at (MDLocation 3 EmptyString (MDLocation 0 EmptyString MDNull)) in
  forall (inst_ratio : Z) (st : LoopState),
    passes_whitelist pass (block_loc unknownBB) = false /\
    instrument_block pass inst_ratio unknownBB st
      = (unknownBB, NotWhitelisted, st) /\
    passes_whitelist pass (block_loc namelessBB) = false /\
    instrument_block pass inst_ratio namelessBB st
      = (namelessBB, NotWhitelisted, st).
Proof.
  intros pass unknownBB namelessBB inst_ratio st.
  repeat split; reflexivity.
Qed.

(** C6: under a non-empty whitelist, a block whose file name [f] was
    resolved is eligible exactly when some whitelist entry is a suffix of
    [f]; the comparison is on characters only, so "oo.c" matches "foo.c";
    an entry longer than [f] does not match. *)
Theorem C6_whitelist_suffix_match (pass : AFLCoverage) (BB : BasicBlock)
    (f : string) :
  myWhitelist pass <> [] ->
  isUnknown (block_loc BB) = false ->
  fst (instLocation (block_loc BB)) = f ->
  f <> EmptyString ->
  (passes_whitelist pass (block_loc BB) = true <->
   exists s, In s (myWhitelist pass) /\ is_suffix s f) /\
  (forall inst_ratio st,
     decision_of (instrument_block pass inst_ratio BB st) <> NotWhitelisted <->
     exists s, In s (myWhitelist pass) /\ is_suffix s f) /\
  (forall s, (String.length f < String.length s)%nat ->
             entry_matches f s = false /\ ~ is_suffix s f) /\
  entry_matches "foo.c" "oo.c" = true.
Proof.
  intros Hne Hk Hf Hfe.
  assert (E : passes_whitelist pass (block_loc BB) = true <->
              exists s, In s (myWhitelist pass) /\ is_suffix s f).
  { unfold passes_whitelist.
    destruct (myWhitelist pass) as [|w wl] eqn:Ew; [congruence|].
    cbn [empty_list negb].
    rewrite (instrumentBlock_resolved _ _ f Hk Hf Hfe), whitelist_scan_true.
    split; intros [s [Hin Hs]]; exists s; split; auto;
      now apply entry_matches_suffix. }
  split; [exact E|]. split.
  - intros inst_ratio st. rewrite <- E. symmetry. apply eligible_iff_decision.
  - split; [|reflexivity].
    intros s Hlen. split; [now apply entry_matches_longer|].
    intros [pre ->]. rewrite length_app in Hlen. lia.
Qed.

Lemma C6_whitelist_suffix_match_witness :
  myWhitelist (mkAFLCoverage ["oo.c"]) <> [] /\
  isUnknown (block_loc (block_at (MDLocation 7 "foo.c" MDNull))) = false /\
  (passes_whitelist (mkAFLCoverage ["oo.c"])
     (block_loc (block_at (MDLocation 7 "foo.c" MDNull))) = true <->
   exists s, In s (myWhitelist (mkAFLCoverage ["oo.c"])) /\
             is_suffix s "foo.c").
Proof.
  split; [discriminate|]. split; [reflexivity|].
  apply (C6_whitelist_suffix_match (mkAFLCoverage ["oo.c"])
           (block_at (MDLocation 7 "foo.c" MDNull)) "foo.c").
  - discriminate.
  - reflexivity.
  - reflexivity.
  - discriminate.
Defined.

(** C7: with an empty whitelist, which is what the constructor leaves when
    AFL_INST_WHITELIST is not set, the filter is bypassed: every block of
    every function is eligible and goes on to the ratio test. *)
Theorem C7_empty_whitelist_all_eligible (pass : AFLCoverage) :
  myWhitelist pass = [] ->
  (forall Loc, passes_whitelist pass Loc = true) /\
  (forall inst_ratio BB st,
     instrument_block pass inst_ratio BB st =
     assign_and_insert inst_ratio BB (getFirstInsertionPt BB)
       (mkIRBuilder (ls_next_id st) (block_loc BB) []) st) /\
  (forall env g M,
     Forall (fun d => d <> NotWhitelisted)
            (decisions (runOnModule pass env g M))) /\
  (forall env, getenv env "AFL_INST_WHITELIST" = None ->
               AFLCoverage_new env = Ok (mkAFLCoverage [])).
Proof.
  intros Hwl.
  assert (Hall : forall Loc, passes_whitelist pass Loc = true).
  { intros Loc. unfold passes_whitelist. rewrite Hwl. reflexivity. }
  split; [exact Hall|]. split; [|split].
  - intros inst_ratio BB st. apply instrument_block_passed, Hall.
  - intros env g M.
    destruct (decide_inst_ratio_total env) as [[r Hr]|[msg Hr]].
    + apply (Forall2_right _ (module_blocks M)).
      apply (runOnModule_decisions pass env g M r); [exact Hr|].
      intros BB st. apply eligible_iff_decision, Hall.
    + destruct (runOnModule_fatal pass env g M msg Hr) as [_ [_ ->]].
      constructor.
  - intros env Henv. unfold AFLCoverage_new. rewrite Henv. reflexivity.
Qed.

Lemma C7_empty_whitelist_all_eligible_witness :
  myWhitelist (mkAFLCoverage []) = [] /\
  forall Loc, passes_whitelist (mkAFLCoverage []) Loc = true.
Proof.
  split; [reflexivity|].
  apply (C7_empty_whitelist_all_eligible (mkAFLCoverage [])). reflexivity.
Defined.

(** ** The ratio test and the choice of cur_loc *)

Lemma R_range (x : Z) (g : Rand) : 0 < x -> 0 <= fst (R x g) < x.
Proof.
  intros Hx. unfold R; simpl. apply Z.mod_pos_bound. exact Hx.
Qed.

Lemma MAP_SIZE_value : MAP_SIZE = 2 ^ 16.
Proof. reflexivity. Qed.

(** The three ways through the loop body. *)
Lemma instrument_block_cases (pass : AFLCoverage) (inst_ratio : Z)
    (BB : BasicBlock) (st : LoopState) :
  let r := fst (R 100 (ls_rand st)) in
  let g1 := snd (R 100 (ls_rand st)) in
  let cur_loc := fst (R MAP_SIZE g1) in
  let IRB1 :=
    snd (insert_coverage cur_loc
           (mkIRBuilder (ls_next_id st) (block_loc BB) [])) in
  (passes_whitelist pass (block_loc BB) = false /\
   instrument_block pass inst_ratio BB st = (BB, NotWhitelisted, st)) \/
  (passes_whitelist pass (block_loc BB) = true /\ inst_ratio <= r /\
   instrument_block pass inst_ratio BB st =
   (BB, RatioSkipped, mkLoopState g1 (ls_next_id st) (inst_blocks st))) \/
  (passes_whitelist pass (block_loc BB) = true /\ r < inst_ratio /\
   instrument_block pass inst_ratio BB st =
   (insert_at BB (getFirstInsertionPt BB)
      (coverage_code cur_loc (ls_next_id st) (block_loc BB)),
    Instrumented cur_loc,
    mkLoopState (snd (R MAP_SIZE g1)) (irb_next IRB1)
      (S (inst_blocks st)))).
Proof.
  intros r g1 cur_loc IRB1.
  destruct (passes_whitelist pass (block_loc BB)) eqn:E.
  - right. rewrite instrument_block_passed by assumption.
    cbv beta iota delta [assign_and_insert].
    change (R 100 (ls_rand st)) with (r, g1).
    cbv beta iota.
    destruct (Z.leb_spec inst_ratio r) as [Hle|Hlt].
    + left. auto.
    + right. split; [reflexivity|]. split; [assumption|].
      change (R MAP_SIZE g1) with (cur_loc, snd (R MAP_SIZE g1)).
      cbv beta iota. unfold coverage_code. fold cur_loc. fold IRB1.
      destruct (insert_coverage cur_loc
                  (mkIRBuilder (ls_next_id st) (block_loc BB) []))
        as [u b] eqn:Eb.
      subst IRB1. reflexivity.
  - left. split; [reflexivity|]. now apply instrument_block_skipped.
Qed.

Lemma instrumented_cur_loc (pass : AFLCoverage) (inst_ratio : Z)
    (BB : BasicBlock) (st : LoopState) (cur_loc : Z) :
  decision_of (instrument_block pass inst_ratio BB st) = Instrumented cur_loc ->
  cur_loc = fst (R MAP_SIZE (snd (R 100 (ls_rand st)))) /\
  passes_whitelist pass (block_loc BB) = true /\
  fst (R 100 (ls_rand st)) < inst_ratio /\
  fst (fst (instrument_block pass inst_ratio BB st)) =
  insert_at BB (getFirstInsertionPt BB)
    (coverage_code cur_loc (ls_next_id st) (block_loc BB)).
Proof.
  destruct (instrument_block_cases pass inst_ratio BB st)
    as [[_ ->]|[[_ [_ ->]]|[Hp [Hr ->]]]]; unfold decision_of; simpl;
    try discriminate.
  intros H; inversion H; subst. auto.
Qed.

(** C5: with the ratio at 100, which is what [decide_inst_ratio] gives when
    AFL_INST_RATIO is not set, the draw [R(100)] is below 100 and every
    eligible block is instrumented. *)
Theorem C5_full_ratio_instruments_every_eligible_block :
  (forall env, getenv env "AFL_INST_RATIO" = None ->
               decide_inst_ratio env = Ok 100) /\
  (forall g, 0 <= fst (R 100 g) < 100) /\
  (forall pass BB st,
     passes_whitelist pass (block_loc BB) = true ->
     exists cur_loc,
       decision_of (instrument_block pass 100 BB st) = Instrumented cur_loc /\
       fst (fst (instrument_block pass 100 BB st)) =
       insert_at BB (getFirstInsertionPt BB)
         (coverage_code cur_loc (ls_next_id st) (block_loc BB))) /\
  (forall pass env g M,
     getenv env "AFL_INST_RATIO" = None ->
     Forall2 (fun BB d =>
                passes_whitelist pass (block_loc BB) = true ->
                exists cur_loc, d = Instrumented cur_loc)
             (module_blocks M) (decisions (runOnModule pass env g M))).
Proof.
  assert (Hdef : forall env, getenv env "AFL_INST_RATIO" = None ->
                             decide_inst_ratio env = Ok 100).
  { intros env H. unfold decide_inst_ratio. rewrite H. reflexivity. }
  assert (Hblock : forall pass BB st,
     passes_whitelist pass (block_loc BB) = true ->
     exists cur_loc,
       decision_of (instrument_block pass 100 BB st) = Instrumented cur_loc /\
       fst (fst (instrument_block pass 100 BB st)) =
       insert_at BB (getFirstInsertionPt BB)
         (coverage_code cur_loc (ls_next_id st) (block_loc BB))).
  { intros pass BB st Hp.
    pose proof (R_range 100 (ls_rand st) ltac:(lia)) as Hr.
    destruct (instrument_block_cases pass 100 BB st)
      as [[Hf _]|[[_ [Hle _]]|[_ [_ ->]]]].
    - congruence.
    - lia.
    - eexists. unfold decision_of. simpl. split; reflexivity. }
  split; [exact Hdef|]. split; [|split].
  - intros g. apply R_range. lia.
  - exact Hblock.
  - intros pass env g M Henv.
    apply (runOnModule_decisions pass env g M 100); [now apply Hdef|].
    intros BB st Hp. destruct (Hblock pass BB st Hp) as [c [Hc _]]. eauto.
Qed.

Lemma C5_full_ratio_instruments_every_eligible_block_witness :
  getenv (env_of [] []) "AFL_INST_RATIO" = None /\
  decide_inst_ratio (env_of [] []) = Ok 100 /\
  passes_whitelist (mkAFLCoverage ["foo.c"])
    (block_loc (block_at (MDLocation 7 "src/foo.c" MDNull))) = true /\
  exists cur_loc,
    decision_of
      (instrument_block (mkAFLCoverage ["foo.c"]) 100
         (block_at (MDLocation 7 "src/foo.c" MDNull))
         (mkLoopState counting_rand 1 0)) = Instrumented cur_loc.
Proof.
  split; [reflexivity|]. split.
  - apply (proj1 C5_full_ratio_instruments_every_eligible_block). reflexivity.
  - split; [reflexivity|].
    destruct (proj1 (proj2 (proj2
                C5_full_ratio_instruments_every_eligible_block))
                (mkAFLCoverage ["foo.c"])
                (block_at (MDLocation 7 "src/foo.c" MDNull))
                (mkLoopState counting_rand 1 0) eq_refl) as [c [Hc _]].
    exists c. exact Hc.
Defined.

(** The check of lines 111-113, on what [sscanf] converts: when it
    converts nothing, or converts to 0 or to more than 100, [runOnModule]
    ends with the fatal error before anything is declared or inserted;
    when AFL_INST_RATIO is not set, the ratio is 100 and the pass runs to
    its end. *)
Lemma unconverted_ratio_is_fatal (pass : AFLCoverage) (env : Env) (g : Rand)
    (M : Module) :
  (forall str,
     getenv env "AFL_INST_RATIO" = Some str ->
     sscanf_u str = None \/ sscanf_u str = Some 0 \/
     (exists v, sscanf_u str = Some v /\ 100 < v) ->
     returned (runOnModule pass env g M)
       = Fatal "Bad value of AFL_INST_RATIO (must be between 1 and 100)" /\
     out_module (runOnModule pass env g M) = M /\
     decisions (runOnModule pass env g M) = []) /\
  (getenv env "AFL_INST_RATIO" = None ->
     decide_inst_ratio env = Ok 100 /\
     returned (runOnModule pass env g M) = Ok true).
Proof.
  split.
  - intros str Henv Hbad.
    apply runOnModule_fatal.
    unfold decide_inst_ratio. rewrite Henv.
    destruct Hbad as [-> | [-> | [v [-> Hv]]]]; try reflexivity.
    destruct (Z.ltb_spec 100 v); [|lia].
    rewrite Bool.orb_true_r. reflexivity.
  - intros Henv.
    assert (Hr : decide_inst_ratio env = Ok 100).
    { unfold decide_inst_ratio. rewrite Henv. reflexivity. }
    split; [exact Hr|].
    apply (runOnModule_decisions pass env g M 100 (fun _ _ => True));
      [exact Hr | auto].
Qed.

(** C8, as the code has it: values of AFL_INST_RATIO that are not an
    integer between 1 and 100 get past the check of lines 111-113.
    [sscanf] stops at the first character that is not a digit and keeps
    the low 32 bits of a number that does not fit, so "4294967346" and
    "50x" are taken as 50, "-4294967295" and "1e9" as 1, "100.9" as 100;
    no fatal error is raised, the pass runs to its end with that ratio and
    instruments blocks.  The message of line 113 says the value must be
    between 1 and 100. *)
Theorem C8_out_of_range_ratio_is_accepted :
  decide_inst_ratio (env_of [("AFL_INST_RATIO", "4294967346")] []) = Ok 50 /\
  decide_inst_ratio (env_of [("AFL_INST_RATIO", "-4294967295")] []) = Ok 1 /\
  decide_inst_ratio (env_of [("AFL_INST_RATIO", "50x")] []) = Ok 50 /\
  decide_inst_ratio (env_of [("AFL_INST_RATIO", "1e9")] []) = Ok 1 /\
  decide_inst_ratio (env_of [("AFL_INST_RATIO", "100.9")] []) = Ok 100 /\
  (forall pass g M,
     returned (runOnModule pass
                 (env_of [("AFL_INST_RATIO", "4294967346")] []) g M)
       = Ok true /\
     returned (runOnModule pass
                 (env_of [("AFL_INST_RATIO", "50x")] []) g M)
       = Ok true) /\
  decisions (runOnModule (mkAFLCoverage [])
               (env_of [("AFL_INST_RATIO", "4294967346")] [])
               counting_rand (mkModule [] [[block_at MDNull]] 1))
    = [Instrumented 1] /\
  decisions (runOnModule (mkAFLCoverage [])
               (env_of [("AFL_INST_RATIO", "50x")] [])
               counting_rand (mkModule [] [[block_at MDNull]] 1))
    = [Instrumented 1].
Proof.
  repeat split; try reflexivity.
  - apply (runOnModule_decisions pass
             (env_of [("AFL_INST_RATIO", "4294967346")] []) g M 50
             (fun _ _ => True)); [reflexivity | auto].
  - apply (runOnModule_decisions pass
             (env_of [("AFL_INST_RATIO", "50x")] []) g M 50
             (fun _ _ => True)); [reflexivity | auto].
Qed.

(** C9: when AFL_INST_WHITELIST names a file that cannot be opened, the
    constructor ends with a fatal error; no pass object comes out of it, so
    the compilation stops there, with the module untouched. *)
Theorem C9_unreadable_whitelist_is_fatal (env : Env) (path : string) :
  getenv env "AFL_INST_WHITELIST" = Some path ->
  file_content env path = None ->
  AFLCoverage_new env = Fatal "Unable to open AFL_INST_WHITELIST" /\
  (forall pass, AFLCoverage_new env <> Ok pass) /\
  (forall g M,
     returned (run_pass env g M) = Fatal "Unable to open AFL_INST_WHITELIST" /\
     out_module (run_pass env g M) = M /\
     decisions (run_pass env g M) = []).
Proof.
  intros Henv Hfile.
  assert (E : AFLCoverage_new env = Fatal "Unable to open AFL_INST_WHITELIST").
  { unfold AFLCoverage_new, ifstream_open. rewrite Henv, Hfile. reflexivity. }
  split; [exact E|]. split.
  - intros pass. rewrite E. discriminate.
  - intros g M. unfold run_pass. rewrite E. simpl. auto.
Qed.

Lemma C9_unreadable_whitelist_is_fatal_witness :
  getenv (env_of [("AFL_INST_WHITELIST", "missing.txt")] [])
    "AFL_INST_WHITELIST" = Some "missing.txt" /\
  file_content (env_of [("AFL_INST_WHITELIST", "missing.txt")] [])
    "missing.txt" = None /\
  AFLCoverage_new (env_of [("AFL_INST_WHITELIST", "missing.txt")] [])
    = Fatal "Unable to open AFL_INST_WHITELIST".
Proof.
  split; [reflexivity|]. split; [reflexivity|].
  apply (C9_unreadable_whitelist_is_fatal
           (env_of [("AFL_INST_WHITELIST", "missing.txt")] [])
           "missing.txt"); reflexivity.
Defined.

(** ** What the inserted code does *)

Ltac resolve_eqb_in H :=
  repeat match type of H with
  | context [Nat.eqb ?a ?b] =>
      first [ replace (Nat.eqb a b) with true in H
                by (symmetry; apply Nat.eqb_eq; lia)
            | replace (Nat.eqb a b) with false in H
                by (symmetry; apply Nat.eqb_neq; lia) ]
  end.

Ltac resolve_eqb :=
  repeat match goal with
  | |- context [Nat.eqb ?a ?b] =>
      first [ replace (Nat.eqb a b) with true
                by (symmetry; apply Nat.eqb_eq; lia)
            | replace (Nat.eqb a b) with false
                by (symmetry; apply Nat.eqb_neq; lia) ]
  end.

(** One call of the builder: its result is computed on its own, and the
    identifier tests it leaves are settled before the next call. *)
Ltac irb_step :=
  unfold irb_bind at 1; cbv beta;
  match goal with
  | |- context [let (_, _) := ?m ?b in _] =>
      let E := fresh "E" in
      destruct (m b) as [? ?] eqn:E;
      cbv [CreateLoad CreateStore CreateZExt CreateXor CreateAdd CreateGEP
           Insert setMetadata_nosanitize irb_bind irb_ret irb_next irb_dbg
           irb_inserted inst_id inst_op inst_dbg inst_nosanitize inst_of
           type_of pointee AFLPrevLoc AFLMapPtr map app] in E;
      resolve_eqb_in E;
      cbv iota in E;
      inversion E; subst; clear E
  end.

(** One instruction of the inserted code. *)
Ltac exec_step :=
  match goal with
  | |- context [exec ?m (?i :: ?rest)] =>
      let E := fresh "E" in
      let m1 := fresh "m" in
      change (exec m (i :: rest))
        with (match exec_inst m i with
              | Some m' => exec m' rest
              | None => None
              end);
      destruct (exec_inst m i) as [m1|] eqn:E;
      cbv [exec_inst inst_op inst_id eval set_reg set_global set_byte regs
           globals memory type_of pointee AFLPrevLoc AFLMapPtr] in E;
      resolve_eqb_in E; cbv iota in E;
      [ inversion E; subst m1; clear E | discriminate E ]
  end.

Lemma coverage_code_eq (c : Z) (next : nat) (Loc : DebugLoc) :
  coverage_code c next Loc =
  [ mkInstruction next (Load AFLPrevLoc) true Loc;
    mkInstruction (1 + next) (ZExt (Reg next Int16Ty) Int64Ty) false Loc;
    mkInstruction (2 + next) (Load AFLMapPtr) true Loc;
    mkInstruction (3 + next)
      (Xor (Reg (1 + next) Int64Ty) (ConstantInt Int64Ty c)) false Loc;
    mkInstruction (4 + next)
      (GetElementPtr (Reg (2 + next) (PointerTy Int8Ty))
         (Reg (3 + next) Int64Ty)) false Loc;
    mkInstruction (5 + next) (Load (Reg (4 + next) (PointerTy Int8Ty)))
      true Loc;
    mkInstruction (6 + next)
      (Add (Reg (5 + next) Int8Ty) (ConstantInt Int8Ty 1)) false Loc;
    mkInstruction (7 + next)
      (Store (Reg (6 + next) Int8Ty) (Reg (4 + next) (PointerTy Int8Ty)))
      true Loc;
    mkInstruction (8 + next)
      (Store (ConstantInt Int16Ty (Z.shiftr c 1)) AFLPrevLoc) true Loc ].
Proof.
  unfold coverage_code, insert_coverage.
  repeat irb_step.
  cbv [setMetadata_nosanitize snd irb_inserted map inst_id inst_op inst_dbg
       AFLPrevLoc AFLMapPtr].
  resolve_eqb. reflexivity.
Qed.

Lemma exec_coverage_code_raw (m : Machine) (c : Z) (next : nat)
    (Loc : DebugLoc) :
  let p := wrap Int64Ty (wrap Int16Ty (globals m "__afl_prev_loc")) in
  let addr :=
    wrap (PointerTy Int8Ty)
      (wrap (PointerTy Int8Ty) (globals m "__afl_area_ptr")
       + signed64 (Z.lxor p (wrap Int64Ty c)) * 1) in
  exists m',
    exec m (coverage_code c next Loc) = Some m' /\
    (forall n, globals m' n =
               if String.eqb n "__afl_prev_loc"
               then wrap Int16Ty (wrap Int16Ty (Z.shiftr c 1))
               else globals m n) /\
    (forall a, memory m' a =
               if a =? addr
               then wrap Int8Ty
                      (wrap Int8Ty
                         (wrap Int8Ty (memory m addr) + wrap Int8Ty 1))
               else memory m a) /\
    (forall r, (r < next)%nat -> regs m' r = regs m r).
Proof.
  intros p addr. rewrite coverage_code_eq.
  repeat exec_step.
  eexists. split; [reflexivity|].
  cbv [globals memory regs].
  split; [|split].
  - intros n. reflexivity.
  - intros a. reflexivity.
  - intros r Hr. resolve_eqb. reflexivity.
Qed.

Lemma lxor_bound (k a b : Z) :
  0 <= k -> 0 <= a < 2 ^ k -> 0 <= b < 2 ^ k -> 0 <= Z.lxor a b < 2 ^ k.
Proof.
  intros Hk Ha Hb.
  assert (Hnn : 0 <= Z.lxor a b) by (apply Z.lxor_nonneg; lia).
  split; [exact Hnn|].
  destruct (Z.eq_dec (Z.lxor a b) 0) as [E|E]; [rewrite E; lia|].
  apply Z.log2_lt_pow2; [lia|].
  pose proof (Z.log2_lxor a b ltac:(lia) ltac:(lia)) as Hl.
  assert (Hka : Z.log2 a < k \/ a = 0).
  { destruct (Z.eq_dec a 0); [auto|left; apply Z.log2_lt_pow2; lia]. }
  assert (Hkb : Z.log2 b < k \/ b = 0).
  { destruct (Z.eq_dec b 0); [auto|left; apply Z.log2_lt_pow2; lia]. }
  destruct Hka as [Hka| ->], Hkb as [Hkb| ->].
  - lia.
  - rewrite Z.lxor_0_r in *. lia.
  - rewrite Z.lxor_0_l in *. lia.
  - rewrite Z.lxor_0_l in E. congruence.
Qed.

Lemma shiftr1_bound (c : Z) :
  0 <= c < MAP_SIZE -> 0 <= Z.shiftr c 1 < 2 ^ 15.
Proof.
  rewrite MAP_SIZE_value, Z.shiftr_div_pow2 by lia. intros H.
  change (2 ^ 1) with 2. split.
  - apply Z.div_pos; lia.
  - apply Z.div_lt_upper_bound; lia.
Qed.

Lemma cell_addr_inj (m : Machine) (o1 o2 : Z) :
  0 <= o1 < 2 ^ 64 -> 0 <= o2 < 2 ^ 64 ->
  cell_addr m o1 = cell_addr m o2 -> o1 = o2.
Proof.
  unfold cell_addr. intros H1 H2 E.
  pose proof (Z.div_mod (area_ptr m + o1) (2 ^ 64) ltac:(lia)) as D1.
  pose proof (Z.div_mod (area_ptr m + o2) (2 ^ 64) ltac:(lia)) as D2.
  rewrite E in D1.
  set (q1 := (area_ptr m + o1) / 2 ^ 64) in *.
  set (q2 := (area_ptr m + o2) / 2 ^ 64) in *.
  assert (o1 - o2 = 2 ^ 64 * (q1 - q2)) by lia.
  assert (q1 - q2 = 0) by nia.
  lia.
Qed.

(** One execution of the code inserted for [c], an [unsigned int], in
    terms of the previous location and of the bitmap. *)
Lemma exec_coverage_code_uint (m : Machine) (c : Z) (next : nat)
    (Loc : DebugLoc) :
  0 <= c < 2 ^ 32 ->
  let e := edge_id c (wrap Int16Ty (prev_loc m)) in
  exists m',
    exec m (coverage_code c next Loc) = Some m' /\
    prev_loc m' = wrap Int16Ty (Z.shiftr c 1) /\
    area_ptr m' = area_ptr m /\
    0 <= e < 2 ^ 32 /\
    (forall a, memory m' a =
               if a =? cell_addr m e then (memory m a + 1) mod 256
               else memory m a) /\
    (forall o, 0 <= o < 2 ^ 64 ->
               bitmap m' o =
               if o =? e then (bitmap m o + 1) mod 256 else bitmap m o).
Proof.
  intros Hc e.
  destruct (exec_coverage_code_raw m c next Loc) as [m' [Hex [Hg [Hm _]]]].
  assert (Hp : 0 <= wrap Int16Ty (prev_loc m) < 2 ^ 16).
  { unfold wrap; simpl. apply Z.mod_pos_bound. lia. }
  assert (He : 0 <= e < 2 ^ 32).
  { unfold e, edge_id. apply lxor_bound; lia. }
  assert (Hprev : prev_loc m' = wrap Int16Ty (Z.shiftr c 1)).
  { unfold prev_loc. rewrite Hg. rewrite String.eqb_refl.
    unfold wrap. change (bitwidth Int16Ty) with 16.
    apply Z.mod_mod. lia. }
  assert (Hptr : area_ptr m' = area_ptr m).
  { unfold area_ptr. rewrite Hg. reflexivity. }
  assert (Haddr :
    wrap (PointerTy Int8Ty)
      (wrap (PointerTy Int8Ty) (globals m "__afl_area_ptr")
       + signed64 (Z.lxor (wrap Int64Ty (wrap Int16Ty
                                           (globals m "__afl_prev_loc")))
                          (wrap Int64Ty c)) * 1)
    = cell_addr m e).
  { fold (prev_loc m).
    assert (E1 : wrap Int64Ty (wrap Int16Ty (prev_loc m))
                 = wrap Int16Ty (prev_loc m)).
    { unfold wrap at 1; simpl. apply Z.mod_small. lia. }
    assert (E2 : wrap Int64Ty c = c).
    { unfold wrap; simpl. apply Z.mod_small. lia. }
    rewrite E1, E2. fold (edge_id c (wrap Int16Ty (prev_loc m))). fold e.
    unfold signed64. destruct (Z.ltb_spec e (2 ^ 63)); [|lia].
    unfold cell_addr, wrap, area_ptr; simpl bitwidth.
    rewrite Z.mul_1_r, Z.add_mod_idemp_l by lia. reflexivity. }
  rewrite Haddr in Hm.
  assert (Hmem : forall a, memory m' a =
               if a =? cell_addr m e then (memory m a + 1) mod 256
               else memory m a).
  { intros a. rewrite Hm. destruct (Z.eqb_spec a (cell_addr m e)) as [->|];
      [|reflexivity].
    unfold wrap; simpl bitwidth. change (2 ^ 8) with 256.
    change (1 mod 256) with 1.
    rewrite Z.mod_mod, Z.add_mod_idemp_l by lia. reflexivity. }
  exists m'.
  repeat split; try assumption; try lia.
  intros o Ho. unfold bitmap.
  assert (Hca : cell_addr m' o = cell_addr m o)
    by (unfold cell_addr; now rewrite Hptr).
  rewrite Hca, Hmem.
  destruct (Z.eqb_spec o e) as [->|Hne].
  - rewrite Z.eqb_refl. reflexivity.
  - destruct (Z.eqb_spec (cell_addr m o) (cell_addr m e)) as [E|]; [|reflexivity].
    apply cell_addr_inj in E; [congruence | lia | lia].
Qed.

(** The same for a [cur_loc] below the map size: what is stored as
    previous location is [c >> 1] itself, and the offset is below the map
    size. *)
Lemma exec_coverage_code (m : Machine) (c : Z) (next : nat) (Loc : DebugLoc) :
  0 <= c < MAP_SIZE ->
  let e := edge_id c (wrap Int16Ty (prev_loc m)) in
  exists m',
    exec m (coverage_code c next Loc) = Some m' /\
    prev_loc m' = Z.shiftr c 1 /\
    area_ptr m' = area_ptr m /\
    0 <= e < MAP_SIZE /\
    (forall a, memory m' a =
               if a =? cell_addr m e then (memory m a + 1) mod 256
               else memory m a) /\
    (forall o, 0 <= o < 2 ^ 64 ->
               bitmap m' o =
               if o =? e then (bitmap m o + 1) mod 256 else bitmap m o).
Proof.
  intros Hc e.
  pose proof (shiftr1_bound c Hc) as Hs.
  rewrite MAP_SIZE_value in *.
  destruct (exec_coverage_code_uint m c next Loc ltac:(lia))
    as [m' [Hex [Hprev [Hptr [_ [Hmem Hbm]]]]]].
  assert (Hp : 0 <= wrap Int16Ty (prev_loc m) < 2 ^ 16).
  { unfold wrap; simpl. apply Z.mod_pos_bound. lia. }
  exists m'. repeat split; try assumption.
  - rewrite Hprev. unfold wrap; simpl bitwidth. apply Z.mod_small. lia.
  - apply Z.lxor_nonneg; lia.
  - unfold e, edge_id. apply lxor_bound; lia.
Qed.

(** C2, amended: for every admitted block the code inserted at its first
    insertion point, run with previous location [p] and bitmap pointer
    [b], adds one modulo 256 to the bitmap byte at offset
    [cur_loc XOR p], leaves the other bitmap bytes alone, and stores
    [cur_loc >> 1] as previous location.  A block with [cur_loc = 300] that
    runs after a block with [cur_loc = 100], which left 50 as previous
    location, adds one to cell [300 XOR 50 = 286] and leaves 150. *)
Theorem C2_inserted_sequence_updates_edge_cell :
  (forall pass inst_ratio BB st cur_loc,
     decision_of (instrument_block pass inst_ratio BB st)
       = Instrumented cur_loc ->
     fst (fst (instrument_block pass inst_ratio BB st)) =
     insert_at BB (getFirstInsertionPt BB)
       (coverage_code cur_loc (ls_next_id st) (block_loc BB)) /\
     forall m p b,
       prev_loc m = p -> 0 <= p < 2 ^ 16 -> area_ptr m = b ->
       exists m',
         exec m (coverage_code cur_loc (ls_next_id st) (block_loc BB))
           = Some m' /\
         (forall a, memory m' a =
                    if a =? (b + Z.lxor cur_loc p) mod 2 ^ 64
                    then (memory m a + 1) mod 256 else memory m a) /\
         (forall o, 0 <= o < 2 ^ 64 ->
                    bitmap m' o =
                    if o =? Z.lxor cur_loc p then (bitmap m o + 1) mod 256
                    else bitmap m o) /\
         prev_loc m' = Z.shiftr cur_loc 1 /\
         area_ptr m' = b) /\
  (forall m nextB LocB nextA LocA,
     exists mB mA,
       exec m (coverage_code 100 nextB LocB) = Some mB /\
       prev_loc mB = 50 /\
       exec mB (coverage_code 300 nextA LocA) = Some mA /\
       Z.lxor 300 50 = 286 /\
       bitmap mA 286 = (bitmap mB 286 + 1) mod 256 /\
       (forall o, 0 <= o < 2 ^ 64 -> o <> 286 -> bitmap mA o = bitmap mB o) /\
       prev_loc mA = 150).
Proof.
  split.
  - intros pass inst_ratio BB st cur_loc Hd.
    destruct (instrumented_cur_loc pass inst_ratio BB st cur_loc Hd)
      as [Hc [_ [_ Hbb]]].
    split; [exact Hbb|].
    intros m p b Hp Hpr Hb.
    assert (Hrange : 0 <= cur_loc < MAP_SIZE).
    { rewrite Hc. apply R_range. reflexivity. }
    destruct (exec_coverage_code m cur_loc (ls_next_id st) (block_loc BB)
                Hrange) as [m' [Hex [Hprev [Hptr [_ [Hmem Hbm]]]]]].
    assert (Hw : wrap Int16Ty (prev_loc m) = p).
    { rewrite Hp. unfold wrap; simpl. apply Z.mod_small. lia. }
    rewrite Hw in Hmem, Hbm. unfold edge_id in Hmem, Hbm.
    rewrite (Z.lxor_comm p cur_loc) in Hmem, Hbm.
    unfold cell_addr in Hmem. rewrite Hb in Hmem.
    exists m'. repeat split; try assumption. congruence.
  - intros m nextB LocB nextA LocA.
    destruct (exec_coverage_code m 100 nextB LocB ltac:(rewrite MAP_SIZE_value; lia))
      as [mB [HexB [HprevB _]]].
    destruct (exec_coverage_code mB 300 nextA LocA ltac:(rewrite MAP_SIZE_value; lia))
      as [mA [HexA [HprevA [_ [_ [_ HbmA]]]]]].
    rewrite HprevB in HbmA.
    change (edge_id 300 (wrap Int16Ty (Z.shiftr 100 1))) with 286 in HbmA.
    exists mB, mA. repeat split; try assumption.
    + rewrite (HbmA 286) by lia. reflexivity.
    + intros o Ho Hne. rewrite (HbmA o Ho).
      destruct (Z.eqb_spec o 286); [contradiction | reflexivity].
Qed.

Lemma C2_inserted_sequence_updates_edge_cell_witness :
  decision_of (instrument_block (mkAFLCoverage []) 100 (block_at MDNull)
                 (mkLoopState counting_rand 1 0)) = Instrumented 1 /\
  fst (fst (instrument_block (mkAFLCoverage []) 100 (block_at MDNull)
              (mkLoopState counting_rand 1 0))) =
  insert_at (block_at MDNull) (getFirstInsertionPt (block_at MDNull))
    (coverage_code 1 1 (block_loc (block_at MDNull))) /\
  prev_loc (machine_of 50 4096) = 50 /\
  exists m',
    exec (machine_of 50 4096)
      (coverage_code 1 1 (block_loc (block_at MDNull))) = Some m' /\
    prev_loc m' = Z.shiftr 1 1.
Proof.
  split; [reflexivity|].
  destruct (proj1 C2_inserted_sequence_updates_edge_cell
              (mkAFLCoverage []) 100 (block_at MDNull)
              (mkLoopState counting_rand 1 0) 1 eq_refl) as [Hbb Hrun].
  split; [exact Hbb|]. split; [reflexivity|].
  destruct (Hrun (machine_of 50 4096) 50 4096 eq_refl ltac:(lia) eq_refl)
    as [m' [Hex [_ [_ [Hprev _]]]]].
  exists m'. split; assumption.
Defined.

(** C2 as stated fails on its example: starting from a cleared machine,
    the block with [cur_loc = 100] leaves 50 as previous location, and the
    block with [cur_loc = 300] that runs next leaves cell 350 as it was;
    the cell it adds one to is 286. *)
Lemma C2_cell_350_counterexample :
  exists mB mA,
    exec (machine_of 0 4096) (coverage_code 100 0 MDNull) = Some mB /\
    prev_loc mB = 50 /\
    exec mB (coverage_code 300 9 MDNull) = Some mA /\
    prev_loc mA = 150 /\
    bitmap mB 350 = 0 /\ bitmap mA 350 = 0 /\
    bitmap mA 350 <> (bitmap mB 350 + 1) mod 256 /\
    bitmap mB 286 = 0 /\ bitmap mA 286 = 1.
Proof.
  assert (H100 : 0 <= 100 < MAP_SIZE) by (rewrite MAP_SIZE_value; lia).
  assert (H300 : 0 <= 300 < MAP_SIZE) by (rewrite MAP_SIZE_value; lia).
  destruct (exec_coverage_code (machine_of 0 4096) 100 0 MDNull H100)
    as [mB [HexB [HprevB [_ [_ [_ HbmB]]]]]].
  destruct (exec_coverage_code mB 300 9 MDNull H300)
    as [mA [HexA [HprevA [_ [_ [_ HbmA]]]]]].
  rewrite HprevB in HbmA.
  change (edge_id 300 (wrap Int16Ty (Z.shiftr 100 1))) with 286 in HbmA.
  change (edge_id 100 (wrap Int16Ty (prev_loc (machine_of 0 4096))))
    with 100 in HbmB.
  assert (B350 : bitmap mB 350 = 0) by (rewrite HbmB by lia; reflexivity).
  assert (B286 : bitmap mB 286 = 0) by (rewrite HbmB by lia; reflexivity).
  assert (A350 : bitmap mA 350 = 0)
    by (rewrite HbmA by lia; change (350 =? 286) with false; exact B350).
  assert (A286 : bitmap mA 286 = 1)
    by (rewrite HbmA by lia; rewrite Z.eqb_refl, B286; reflexivity).
  exists mB, mA. repeat split; try assumption.
  rewrite A350, B350. discriminate.
Qed.

(** C3, amended: when the block with [cur_loc = 300] runs twice in a row,
    its second run adds one to bitmap cell [300 XOR (300 >> 1) = 442], not
    to cell 0; and for every [cur_loc] with [cur_loc >> 1 <> cur_loc] the
    second of two runs in a row updates a cell whose offset is not 0. *)
Theorem C3_self_loop_edge_is_not_zero :
  (forall cur_loc m next Loc,
     0 <= cur_loc < 2 ^ 32 ->
     Z.shiftr cur_loc 1 <> cur_loc ->
     exists m1 m2,
       exec m (coverage_code cur_loc next Loc) = Some m1 /\
       exec m1 (coverage_code cur_loc next Loc) = Some m2 /\
       edge_id cur_loc (prev_loc m1) <> 0 /\
       bitmap m2 (edge_id cur_loc (prev_loc m1))
         = (bitmap m1 (edge_id cur_loc (prev_loc m1)) + 1) mod 256 /\
       bitmap m2 0 = bitmap m1 0 /\
       (cur_loc < MAP_SIZE ->
        edge_id cur_loc (prev_loc m1)
          = Z.lxor cur_loc (Z.shiftr cur_loc 1))) /\
  (forall m next Loc,
     exists m1 m2,
       exec m (coverage_code 300 next Loc) = Some m1 /\
       exec m1 (coverage_code 300 next Loc) = Some m2 /\
       Z.lxor 300 (Z.shiftr 300 1) = 442 /\
       bitmap m2 442 = (bitmap m1 442 + 1) mod 256 /\
       bitmap m2 0 = bitmap m1 0).
Proof.
  assert (Hgen : forall cur_loc m next Loc,
     0 <= cur_loc < 2 ^ 32 ->
     Z.shiftr cur_loc 1 <> cur_loc ->
     exists m1 m2,
       exec m (coverage_code cur_loc next Loc) = Some m1 /\
       exec m1 (coverage_code cur_loc next Loc) = Some m2 /\
       edge_id cur_loc (prev_loc m1) <> 0 /\
       bitmap m2 (edge_id cur_loc (prev_loc m1))
         = (bitmap m1 (edge_id cur_loc (prev_loc m1)) + 1) mod 256 /\
       bitmap m2 0 = bitmap m1 0 /\
       (cur_loc < MAP_SIZE ->
        edge_id cur_loc (prev_loc m1)
          = Z.lxor cur_loc (Z.shiftr cur_loc 1))).
  { intros c m next Loc Hc Hne.
    destruct (exec_coverage_code_uint m c next Loc Hc)
      as [m1 [Hex1 [Hprev1 _]]].
    destruct (exec_coverage_code_uint m1 c next Loc Hc)
      as [m2 [Hex2 [_ [_ [He [_ Hbm]]]]]].
    assert (Hp : 0 <= prev_loc m1 < 2 ^ 16).
    { rewrite Hprev1. unfold wrap; simpl bitwidth.
      apply Z.mod_pos_bound. lia. }
    assert (Hw : wrap Int16Ty (prev_loc m1) = prev_loc m1).
    { unfold wrap; simpl bitwidth. apply Z.mod_small. lia. }
    rewrite Hw in He, Hbm.
    assert (Hnz : edge_id c (prev_loc m1) <> 0).
    { unfold edge_id. intros E. apply Z.lxor_eq in E.
      assert (Hs : 0 <= Z.shiftr c 1 < 2 ^ 15).
      { rewrite Z.shiftr_div_pow2 by lia. change (2 ^ 1) with 2. split.
        - apply Z.div_pos; lia.
        - apply Z.div_lt_upper_bound; lia. }
      rewrite Hprev1 in E. unfold wrap in E; simpl bitwidth in E.
      rewrite Z.mod_small in E by lia. congruence. }
    exists m1, m2. repeat split; try assumption.
    - rewrite Hbm by lia. rewrite Z.eqb_refl. reflexivity.
    - rewrite Hbm by lia.
      destruct (Z.eqb_spec 0 (edge_id c (prev_loc m1))); [congruence|].
      reflexivity.
    - intros Hlt. pose proof (shiftr1_bound c ltac:(lia)) as Hs.
      unfold edge_id. rewrite Hprev1. unfold wrap; simpl bitwidth.
      rewrite Z.mod_small by lia. apply Z.lxor_comm. }
  split; [exact Hgen|].
  intros m next Loc.
  destruct (Hgen 300 m next Loc) as [m1 [m2 [H1 [H2 [_ [Hb [H0 He]]]]]]].
  - lia.
  - discriminate.
  - specialize (He ltac:(rewrite MAP_SIZE_value; lia)).
    change (Z.lxor 300 (Z.shiftr 300 1)) with 442 in He. rewrite He in Hb.
    exists m1, m2. repeat split; assumption.
Qed.

Lemma C3_self_loop_edge_is_not_zero_witness :
  0 <= 300 < 2 ^ 32 /\
  Z.shiftr 300 1 <> 300 /\
  exists m1 m2,
    exec (machine_of 0 4096) (coverage_code 300 0 MDNull) = Some m1 /\
    exec m1 (coverage_code 300 0 MDNull) = Some m2 /\
    edge_id 300 (prev_loc m1) <> 0.
Proof.
  split; [lia|].
  split; [discriminate|].
  destruct (proj1 C3_self_loop_edge_is_not_zero 300 (machine_of 0 4096)
              0%nat MDNull)
    as [m1 [m2 [H1 [H2 [Hnz _]]]]].
  - lia.
  - discriminate.
  - exists m1, m2. repeat split; assumption.
Defined.

(** C3 as stated fails on its example: when the block with
    [cur_loc = 300] runs twice from a cleared machine, cell 450 is left as
    it was by the second run; the cell that run adds one to is 442. *)
Lemma C3_cell_450_counterexample :
  Z.lxor 300 (Z.shiftr 300 1) <> 450 /\
  exists m1 m2,
    exec (machine_of 0 4096) (coverage_code 300 0 MDNull) = Some m1 /\
    prev_loc m1 = 150 /\
    exec m1 (coverage_code 300 0 MDNull) = Some m2 /\
    bitmap m1 450 = 0 /\ bitmap m2 450 = 0 /\
    bitmap m2 450 <> (bitmap m1 450 + 1) mod 256 /\
    bitmap m1 442 = 0 /\ bitmap m2 442 = 1.
Proof.
  split; [vm_compute; discriminate|].
  assert (H300 : 0 <= 300 < MAP_SIZE) by (rewrite MAP_SIZE_value; lia).
  destruct (exec_coverage_code (machine_of 0 4096) 300 0 MDNull H300)
    as [m1 [Hex1 [Hprev1 [_ [_ [_ Hbm1]]]]]].
  destruct (exec_coverage_code m1 300 0 MDNull H300)
    as [m2 [Hex2 [Hprev2 [_ [_ [_ Hbm2]]]]]].
  rewrite Hprev1 in Hbm2.
  change (edge_id 300 (wrap Int16Ty (Z.shiftr 300 1))) with 442 in Hbm2.
  change (edge_id 300 (wrap Int16Ty (prev_loc (machine_of 0 4096))))
    with 300 in Hbm1.
  assert (B450 : bitmap m1 450 = 0) by (rewrite Hbm1 by lia; reflexivity).
  assert (B442 : bitmap m1 442 = 0) by (rewrite Hbm1 by lia; reflexivity).
  assert (A450 : bitmap m2 450 = 0)
    by (rewrite Hbm2 by lia; change (450 =? 442) with false; exact B450).
  assert (A442 : bitmap m2 442 = 1)
    by (rewrite Hbm2 by lia; rewrite Z.eqb_refl, B442; reflexivity).
  exists m1, m2. repeat split; try assumption.
  rewrite A450, B450. discriminate.
Qed.

(** C4: the [cur_loc] of every instrumented block lies in [[0, MAP_SIZE)];
    for a map size that is a power of two, the offset [cur_loc XOR prev]
    of two values below the map size is below it too, so it is an offset
    into the bitmap; and the value [cur_loc >> 1] stored as previous
    location fits in 16 bits. *)
Theorem C4_locations_in_range :
  (forall pass inst_ratio BB st cur_loc,
     decision_of (instrument_block pass inst_ratio BB st)
       = Instrumented cur_loc ->
     0 <= cur_loc < MAP_SIZE) /\
  (forall pass env g M,
     Forall (fun d => forall cur_loc, d = Instrumented cur_loc ->
                                      0 <= cur_loc < MAP_SIZE)
            (decisions (runOnModule pass env g M))) /\
  (forall k cur_loc prev,
     0 <= k -> 0 <= cur_loc < 2 ^ k -> 0 <= prev < 2 ^ k ->
     0 <= edge_id cur_loc prev < 2 ^ k) /\
  (forall cur_loc prev,
     0 <= cur_loc < MAP_SIZE -> 0 <= prev < MAP_SIZE ->
     0 <= edge_id cur_loc prev < MAP_SIZE) /\
  (forall cur_loc m next Loc,
     0 <= cur_loc < MAP_SIZE ->
     exists m',
       exec m (coverage_code cur_loc next Loc) = Some m' /\
       prev_loc m' = Z.shiftr cur_loc 1 /\
       0 <= prev_loc m' < 2 ^ 16).
Proof.
  assert (Hblock : forall pass inst_ratio BB st cur_loc,
     decision_of (instrument_block pass inst_ratio BB st)
       = Instrumented cur_loc ->
     0 <= cur_loc < MAP_SIZE).
  { intros pass inst_ratio BB st c Hd.
    destruct (instrumented_cur_loc pass inst_ratio BB st c Hd) as [-> _].
    apply R_range. reflexivity. }
  split; [exact Hblock|]. split; [|split; [|split]].
  - intros pass env g M.
    destruct (decide_inst_ratio_total env) as [[r Hr]|[msg Hr]].
    + apply (Forall2_right _ (module_blocks M)).
      apply (runOnModule_decisions pass env g M r); [exact Hr|].
      intros BB st c Hd. apply (Hblock pass r BB st c Hd).
    + destruct (runOnModule_fatal pass env g M msg Hr) as [_ [_ ->]].
      constructor.
  - intros k c p Hk Hc Hp. unfold edge_id. apply lxor_bound; assumption.
  - intros c p. rewrite MAP_SIZE_value. intros Hc Hp.
    unfold edge_id. apply lxor_bound; lia.
  - intros c m next Loc Hc.
    destruct (exec_coverage_code m c next Loc Hc) as [m' [Hex [Hprev _]]].
    pose proof (shiftr1_bound c Hc) as Hs.
    exists m'. repeat split; try assumption; rewrite Hprev; lia.
Qed.

Lemma C4_locations_in_range_witness :
  decision_of (instrument_block (mkAFLCoverage []) 100 (block_at MDNull)
                 (mkLoopState counting_rand 1 0)) = Instrumented 1 /\
  0 <= 1 < MAP_SIZE /\
  (0 <= 16 /\ 0 <= 300 < 2 ^ 16 /\ 0 <= 150 < 2 ^ 16) /\
  0 <= edge_id 300 150 < 2 ^ 16.
Proof.
  split; [reflexivity|]. split.
  - apply (proj1 C4_locations_in_range (mkAFLCoverage []) 100
             (block_at MDNull) (mkLoopState counting_rand 1 0) 1).
    reflexivity.
  - split; [lia|].
    apply (proj1 (proj2 (proj2 C4_locations_in_range)) 16 300 150); lia.
Defined.

(** ** Loading the whitelist *)

Lemma extract_line_rest_shorter (s l rest : string) :
  extract_line s = (l, Some rest) ->
  (String.length rest < String.length s)%nat.
Proof.
  revert l rest; induction s as [|c s IH]; intros l rest; simpl.
  - discriminate.
  - destruct (Ascii.eqb c newline).
    + intros H; inversion H; subst; lia.
    + destruct (extract_line s) as [l' k] eqn:E.
      intros H; inversion H; subst.
      specialize (IH l' rest eq_refl). lia.
Qed.

Lemma getline_measure (s : ifstream) (line : string) :
  stream_ok s = true ->
  (stream_measure (fst (getline s line)) < stream_measure s)%nat.
Proof.
  unfold stream_ok, getline, stream_measure.
  destruct s as [u e f]; simpl. intros Hf.
  destruct f; [discriminate|].
  destruct e; simpl; [lia|].
  destruct (extract_line u) as [l [rest|]] eqn:E; simpl.
  - apply extract_line_rest_shorter in E. lia.
  - destruct (Nat.eqb (String.length l) 0); lia.
Qed.

Lemma whitelist_loop_step (s : ifstream) (line : string) (wl : list string) :
  whitelist_loop s line wl =
  if stream_ok s
  then whitelist_loop (fst (getline s line)) (snd (getline s line))
         (wl ++ [line])
  else wl.
Proof.
  rewrite whitelist_loop_equation_1.
  destruct s as [u e [|]]; reflexivity.
Qed.

Lemma whitelist_loop_acc (n : nat) :
  forall s line wl,
    (stream_measure s <= n)%nat ->
    whitelist_loop s line wl = (wl ++ whitelist_loop s line [])%list.
Proof.
  induction n as [|n IH]; intros s line wl Hn.
  - rewrite (whitelist_loop_step s line wl), (whitelist_loop_step s line []).
    assert (E : stream_ok s = false).
    { unfold stream_measure, stream_ok in *.
      destruct (failbit s); [reflexivity|]. destruct (eofbit s); lia. }
    rewrite E. now rewrite app_nil_r.
  - rewrite (whitelist_loop_step s line wl), (whitelist_loop_step s line []).
    destruct (stream_ok s) eqn:E; [|now rewrite app_nil_r].
    pose proof (getline_measure s line E) as Hm.
    rewrite (IH _ _ (wl ++ [line])%list) by lia.
    rewrite (IH _ _ ([] ++ [line])%list) by lia.
    now rewrite <- app_assoc.
Qed.

(** A line that ends with a newline is loaded, and loading goes on with
    what follows the newline. *)
Lemma load_whitelist_line (u l rest : string) :
  extract_line u = (l, Some rest) ->
  load_whitelist (mkStream u false false)
  = l :: load_whitelist (mkStream rest false false).
Proof.
  intros E. unfold load_whitelist at 1. unfold getline at 1.
  cbn [eofbit failbit unread orb]. rewrite E.
  rewrite whitelist_loop_step. cbn [stream_ok failbit negb].
  rewrite (whitelist_loop_acc _ _ _ _ (Nat.le_refl _)).
  cbn [app]. f_equal.
  unfold load_whitelist.
  assert (G : getline (mkStream rest false false) l
              = getline (mkStream rest false false) EmptyString)
    by reflexivity.
  rewrite G.
  destruct (getline (mkStream rest false false) EmptyString); reflexivity.
Qed.

Lemma extract_line_newline (pre x : string) :
  exists l rest, extract_line (pre ++ String newline x) = (l, Some rest).
Proof.
  induction pre as [|c pre [l [rest IH]]]; simpl.
  - exists EmptyString, x. reflexivity.
  - destruct (Ascii.eqb c newline); [eauto|].
    rewrite IH. eauto.
Qed.

(** What is loaded from a file with a newline in it ends with what is
    loaded from the part after that newline. *)
Lemma load_whitelist_after_newline (pre x : string) :
  exists l0 ls,
    load_whitelist (mkStream (pre ++ String newline x) false false)
    = (l0 :: ls ++ load_whitelist (mkStream x false false))%list.
Proof.
  induction pre as [|c pre [l0 [ls IH]]].
  - exists EmptyString, []. simpl append.
    apply load_whitelist_line. reflexivity.
  - change (String c pre ++ String newline x)
      with (String c (pre ++ String newline x)).
    destruct (extract_line_newline pre x) as [l [rest El]].
    pose proof (load_whitelist_line _ _ _ El) as Hs.
    rewrite IH in Hs. inversion Hs; subst.
    destruct (Ascii.eqb c newline) eqn:Ec.
    + exists EmptyString, (l :: ls).
      rewrite (load_whitelist_line _ EmptyString (pre ++ String newline x))
        by (simpl; now rewrite Ec).
      rewrite IH. reflexivity.
    + exists (String c l), ls.
      rewrite (load_whitelist_line _ (String c l) rest)
        by (simpl; now rewrite Ec, El).
      congruence.
Qed.

Lemma load_whitelist_empty_line (content : string) :
  has_empty_line content ->
  In EmptyString (load_whitelist (mkStream content false false)).
Proof.
  intros [pre [post [-> [-> | [pre' ->]]]]].
  - rewrite (load_whitelist_line _ EmptyString post) by reflexivity.
    left; reflexivity.
  - assert (E : (pre' ++ String newline EmptyString) ++ String newline post
                = pre' ++ String newline (String newline post)).
    { induction pre' as [|c p IH]; simpl; [reflexivity | now rewrite IH]. }
    rewrite E.
    destruct (load_whitelist_after_newline pre' (String newline post))
      as [l0 [ls ->]].
    rewrite (load_whitelist_line _ EmptyString post) by reflexivity.
    right. apply in_or_app. right. left. reflexivity.
Qed.

(** C10: when the whitelist file has an empty line, the constructor loads
    the empty string as an entry; the empty string matches the end of any
    file name, so every block whose file name is resolved is eligible,
    whatever the other entries are. *)
Theorem C10_empty_line_matches_every_file (env : Env) (path content : string) :
  getenv env "AFL_INST_WHITELIST" = Some path ->
  file_content env path = Some content ->
  has_empty_line content ->
  exists pass,
    AFLCoverage_new env = Ok pass /\
    In EmptyString (myWhitelist pass) /\
    (forall f, entry_matches f EmptyString = true) /\
    (forall BB,
       isUnknown (block_loc BB) = false ->
       fst (instLocation (block_loc BB)) <> EmptyString ->
       passes_whitelist pass (block_loc BB) = true /\
       forall inst_ratio st,
         decision_of (instrument_block pass inst_ratio BB st)
           <> NotWhitelisted).
Proof.
  intros Henv Hfile Hline.
  pose proof (load_whitelist_empty_line content Hline) as Hin.
  exists (mkAFLCoverage (load_whitelist (mkStream content false false))).
  split; [|split; [exact Hin|split; [exact entry_matches_empty|]]].
  - unfold AFLCoverage_new, ifstream_open. rewrite Henv, Hfile. reflexivity.
  - intros BB Hk Hf.
    assert (Hp : passes_whitelist
                   (mkAFLCoverage
                      (load_whitelist (mkStream content false false)))
                   (block_loc BB) = true).
    { unfold passes_whitelist. cbn [myWhitelist].
      destruct (load_whitelist (mkStream content false false)) as [|w wl] eqn:E;
        [reflexivity|].
      cbn [empty_list negb].
      rewrite (instrumentBlock_resolved _ _ _ Hk eq_refl Hf).
      apply whitelist_scan_true. exists EmptyString.
      split; [exact Hin | apply entry_matches_empty]. }
    split; [exact Hp|].
    intros inst_ratio st. apply eligible_iff_decision. exact Hp.
Qed.

Lemma C10_empty_line_matches_every_file_witness :
  getenv (env_of [("AFL_INST_WHITELIST", "wl.txt")]
            [("wl.txt", "a.c" ++ String newline (String newline "b.c"))])
    "AFL_INST_WHITELIST" = Some "wl.txt" /\
  has_empty_line ("a.c" ++ String newline (String newline "b.c")) /\
  AFLCoverage_new
    (env_of [("AFL_INST_WHITELIST", "wl.txt")]
       [("wl.txt", "a.c" ++ String newline (String newline "b.c"))])
    = Ok (mkAFLCoverage ["a.c"; ""; "b.c"]) /\
  exists pass,
    AFLCoverage_new
      (env_of [("AFL_INST_WHITELIST", "wl.txt")]
         [("wl.txt", "a.c" ++ String newline (String newline "b.c"))])
      = Ok pass /\
    passes_whitelist pass
      (block_loc (block_at (MDLocation 7 "src/other.c" MDNull))) = true.
Proof.
  assert (Hline : has_empty_line
                    ("a.c" ++ String newline (String newline "b.c"))).
  { exists ("a.c" ++ String newline ""), "b.c".
    split; [reflexivity|]. right. exists "a.c". reflexivity. }
  split; [reflexivity|]. split; [exact Hline|]. split; [reflexivity|].
  destruct (C10_empty_line_matches_every_file
              (env_of [("AFL_INST_WHITELIST", "wl.txt")]
                 [("wl.txt", "a.c" ++ String newline (String newline "b.c"))])
              "wl.txt" ("a.c" ++ String newline (String newline "b.c"))
              eq_refl eq_refl Hline) as [pass [Hnew [_ [_ Hall]]]].
  exists pass. split; [exact Hnew|].
  apply (Hall (block_at (MDLocation 7 "src/other.c" MDNull))).
  - reflexivity.
  - discriminate.
Defined.

(** * Further properties *)

(** ** The whitelist file *)

Lemma extract_line_no_newline (l rest : string) :
  no_newline l = true ->
  extract_line (l ++ String newline rest) = (l, Some rest).
Proof.
  induction l as [|c l IH]; simpl; intros H.
  - reflexivity.
  - apply andb_true_iff in H. destruct H as [Hc Hl].
    destruct (Ascii.eqb c newline); [discriminate|].
    rewrite (IH Hl). reflexivity.
Qed.

Lemma extract_line_unterminated (l : string) :
  no_newline l = true -> extract_line l = (l, None).
Proof.
  induction l as [|c l IH]; simpl; intros H.
  - reflexivity.
  - apply andb_true_iff in H. destruct H as [Hc Hl].
    destruct (Ascii.eqb c newline); [discriminate|].
    rewrite (IH Hl). reflexivity.
Qed.

Lemma extract_line_line_no_newline (s l : string) (k : option string) :
  extract_line s = (l, k) -> no_newline l = true.
Proof.
  revert l k. induction s as [|c s IH]; simpl; intros l k H.
  - inversion H. reflexivity.
  - destruct (Ascii.eqb c newline) eqn:Ec.
    + inversion H. reflexivity.
    + destruct (extract_line s) as [l' k'] eqn:E.
      inversion H; subst. simpl. rewrite Ec. simpl. eapply IH. reflexivity.
Qed.

(** What is left of the file after its last newline is loaded as a last
    entry, unless it is empty. *)
Lemma load_whitelist_last (u l : string) :
  extract_line u = (l, None) ->
  load_whitelist (mkStream u false false)
  = if empty l then [] else [l].
Proof.
  intros E. unfold load_whitelist, getline.
  cbn [eofbit failbit unread orb]. rewrite E.
  rewrite whitelist_loop_step. cbn [stream_ok failbit negb].
  destruct l as [|c l]; cbn [String.length Nat.eqb negb empty].
  - reflexivity.
  - rewrite whitelist_loop_step. reflexivity.
Qed.

(** What is loaded from newline-terminated lines and a last part. *)
Lemma load_whitelist_terminated (ls : list string) (last : string) :
  Forall (fun l => no_newline l = true) ls ->
  no_newline last = true ->
  load_whitelist (mkStream (terminated_lines ls ++ last) false false)
  = (ls ++ (if empty last then [] else [last]))%list.
Proof.
  intros Hls Hlast. induction Hls as [|l ls Hl Hls IH]; simpl.
  - apply load_whitelist_last. now apply extract_line_unterminated.
  - assert (E : (l ++ String newline (terminated_lines ls)) ++ last
                = l ++ String newline (terminated_lines ls ++ last)).
    { clear. induction l as [|c l IHl]; simpl; [reflexivity|].
      now rewrite IHl. }
    rewrite E.
    rewrite (load_whitelist_line _ l (terminated_lines ls ++ last))
      by now apply extract_line_no_newline.
    now rewrite IH.
Qed.

(** X1: a file made of lines that each end with a newline, followed by a
    last part without newline, is loaded as exactly those lines, in order,
    and then the last part when it is not empty. *)
Theorem load_whitelist_lines (ls : list string) (last : string) :
  Forall (fun l => no_newline l = true) ls ->
  no_newline last = true ->
  load_whitelist (mkStream (terminated_lines ls ++ last) false false)
  = (ls ++ (if empty last then [] else [last]))%list.
Proof.
  exact (load_whitelist_terminated ls last).
Qed.

Lemma load_whitelist_lines_witness :
  Forall (fun l => no_newline l = true) ["a.c"; "dir/b.c"] /\
  no_newline "c.c" = true /\
  load_whitelist (mkStream (terminated_lines ["a.c"; "dir/b.c"] ++ "c.c")
                    false false)
  = ["a.c"; "dir/b.c"; "c.c"].
Proof.
  split; [repeat constructor|]. split; [reflexivity|].
  apply (load_whitelist_lines ["a.c"; "dir/b.c"] "c.c").
  - repeat constructor.
  - reflexivity.
Defined.

(** Every file content is a sequence of newline-terminated lines followed
    by a last part without newline. *)
Lemma content_lines (content : string) :
  exists ls last,
    content = terminated_lines ls ++ last /\
    Forall (fun l => no_newline l = true) ls /\
    no_newline last = true.
Proof.
  induction content as [|c s [ls [last [E [Hls Hlast]]]]].
  - exists [], EmptyString. repeat split; constructor.
  - destruct (Ascii.eqb c newline) eqn:Ec.
    + apply Ascii.eqb_eq in Ec. subst c.
      exists (EmptyString :: ls), last. simpl. rewrite <- E.
      repeat split; auto.
    + destruct ls as [|l ls].
      * exists [], (String c last). simpl in *. rewrite E.
        repeat split; auto. now rewrite Ec.
      * exists (String c l :: ls), last. simpl in *. rewrite E.
        repeat split; auto.
        inversion Hls; subst. constructor; auto.
        simpl. rewrite Ec. assumption.
Qed.

(** X2: no loaded entry has a newline in it, whatever the file. *)
Theorem loaded_entries_have_no_newline (content entry : string) :
  In entry (load_whitelist (mkStream content false false)) ->
  no_newline entry = true.
Proof.
  destruct (content_lines content) as [ls [last [-> [Hls Hlast]]]].
  rewrite (load_whitelist_terminated ls last Hls Hlast).
  intros Hin. apply in_app_or in Hin. destruct Hin as [Hin|Hin].
  - rewrite Forall_forall in Hls. now apply Hls.
  - destruct last; simpl in Hin; [contradiction|].
    destruct Hin as [<-|[]]. exact Hlast.
Qed.

Lemma loaded_entries_have_no_newline_witness :
  In "b.c" (load_whitelist
              (mkStream ("a.c" ++ String newline "b.c") false false)) /\
  no_newline "b.c" = true.
Proof.
  split; [right; left; reflexivity|].
  apply (loaded_entries_have_no_newline ("a.c" ++ String newline "b.c")).
  right; left; reflexivity.
Defined.

(** X3: the loaded whitelist is empty exactly when the file is empty, so
    an empty whitelist file switches the filter off, as an unset
    AFL_INST_WHITELIST does, and any other readable file switches it on. *)
Theorem whitelist_empty_iff_file_empty (env : Env) (path content : string) :
  getenv env "AFL_INST_WHITELIST" = Some path ->
  file_content env path = Some content ->
  exists pass,
    AFLCoverage_new env = Ok pass /\
    (myWhitelist pass = [] <-> content = EmptyString) /\
    (content = EmptyString -> forall Loc, passes_whitelist pass Loc = true) /\
    (content <> EmptyString ->
     forall Loc, passes_whitelist pass Loc
                 = instrumentBlock (myWhitelist pass) Loc).
Proof.
  intros Henv Hfile.
  exists (mkAFLCoverage (load_whitelist (mkStream content false false))).
  assert (Hiff : load_whitelist (mkStream content false false) = []
                 <-> content = EmptyString).
  { split.
    - intros Hl. destruct content as [|c s]; [reflexivity|].
      destruct (extract_line (String c s)) as [l [rest|]] eqn:E.
      + rewrite (load_whitelist_line _ _ _ E) in Hl. discriminate.
      + rewrite (load_whitelist_last _ _ E) in Hl.
        simpl in E. destruct (Ascii.eqb c newline); [discriminate|].
        destruct (extract_line s). inversion E; subst. discriminate.
    - intros ->. reflexivity. }
  split; [|split; [exact Hiff|split]].
  - unfold AFLCoverage_new, ifstream_open. rewrite Henv, Hfile. reflexivity.
  - intros -> Loc. reflexivity.
  - intros Hne Loc. unfold passes_whitelist. cbn [myWhitelist].
    destruct (load_whitelist (mkStream content false false)) eqn:E.
    + destruct Hne. apply Hiff. reflexivity.
    + reflexivity.
Qed.

Lemma whitelist_empty_iff_file_empty_witness :
  getenv (env_of [("AFL_INST_WHITELIST", "wl.txt")] [("wl.txt", "")])
    "AFL_INST_WHITELIST" = Some "wl.txt" /\
  file_content (env_of [("AFL_INST_WHITELIST", "wl.txt")] [("wl.txt", "")])
    "wl.txt" = Some "" /\
  exists pass,
    AFLCoverage_new
      (env_of [("AFL_INST_WHITELIST", "wl.txt")] [("wl.txt", "")]) = Ok pass /\
    passes_whitelist pass MDNull = true.
Proof.
  split; [reflexivity|]. split; [reflexivity|].
  destruct (whitelist_empty_iff_file_empty
              (env_of [("AFL_INST_WHITELIST", "wl.txt")] [("wl.txt", "")])
              "wl.txt" "" eq_refl eq_refl) as [pass [Hnew [_ [Hall _]]]].
  exists pass. split; [exact Hnew|]. apply Hall. reflexivity.
Defined.

(** ** The filter *)

(** X4: which entries the whitelist has decides the filter, not their
    order nor how often they occur. *)
Theorem whitelist_order_is_irrelevant (pass1 pass2 : AFLCoverage) :
  (forall s, In s (myWhitelist pass1) <-> In s (myWhitelist pass2)) ->
  forall Loc, passes_whitelist pass1 Loc = passes_whitelist pass2 Loc.
Proof.
  intros Hsame Loc.
  assert (Hscan : forall f, whitelist_scan f (myWhitelist pass1)
                            = whitelist_scan f (myWhitelist pass2)).
  { intros f. apply Bool.eq_true_iff_eq. rewrite !whitelist_scan_true.
    split; intros [it [Hin Hm]]; exists it; split; auto; now apply Hsame. }
  unfold passes_whitelist, instrumentBlock.
  destruct (myWhitelist pass1) as [|a l1] eqn:E1,
           (myWhitelist pass2) as [|b l2] eqn:E2; cbn [empty_list negb].
  - reflexivity.
  - exfalso. apply (proj2 (Hsame b)). left; reflexivity.
  - exfalso. apply (proj1 (Hsame a)). left; reflexivity.
  - destruct (negb (isUnknown Loc)); [|reflexivity].
    destruct (negb (empty (fst (instLocation Loc)))); [|reflexivity].
    apply Hscan.
Qed.

Lemma whitelist_order_is_irrelevant_witness :
  (forall s, In s (myWhitelist (mkAFLCoverage ["a.c"; "b.c"])) <->
             In s (myWhitelist (mkAFLCoverage ["b.c"; "a.c"; "b.c"]))) /\
  passes_whitelist (mkAFLCoverage ["a.c"; "b.c"])
    (MDLocation 1 "x/b.c" MDNull)
  = passes_whitelist (mkAFLCoverage ["b.c"; "a.c"; "b.c"])
      (MDLocation 1 "x/b.c" MDNull).
Proof.
  assert (H : forall s, In s (myWhitelist (mkAFLCoverage ["a.c"; "b.c"])) <->
                In s (myWhitelist (mkAFLCoverage ["b.c"; "a.c"; "b.c"]))).
  { intros s. simpl. tauto. }
  split; [exact H|].
  apply (whitelist_order_is_irrelevant (mkAFLCoverage ["a.c"; "b.c"])
           (mkAFLCoverage ["b.c"; "a.c"; "b.c"]) H).
Defined.

(** X5: for an instruction that was inlined, the file name the whitelist
    is matched against is the one of the location it was inlined at,
    whenever that one is not empty; the file name of the instruction's own
    location is then not looked at.  Only when the inlined-at file name is
    empty is the own file name used. *)
Theorem filter_uses_inlined_at_file (wl : list string) (line : Z)
    (file : string) (orig : MDNode) :
  (getFilename orig <> EmptyString ->
   instrumentBlock wl (MDLocation line file orig)
   = whitelist_scan (getFilename orig) wl) /\
  (getFilename orig = EmptyString -> file <> EmptyString ->
   instrumentBlock wl (MDLocation line file orig) = whitelist_scan file wl).
Proof.
  unfold instrumentBlock, instLocation. cbn [isUnknown negb getOrigLocation].
  split.
  - intros H. destruct (getFilename orig) eqn:E; [congruence|]. reflexivity.
  - intros -> H. cbn [empty fst getFilename].
    destruct file; [congruence|]. reflexivity.
Qed.

Lemma filter_uses_inlined_at_file_witness :
  getFilename (MDLocation 9 "caller.c" MDNull) <> EmptyString /\
  instrumentBlock ["callee.h"]
    (MDLocation 3 "callee.h" (MDLocation 9 "caller.c" MDNull)) = false.
Proof.
  split; [discriminate|].
  rewrite (proj1 (filter_uses_inlined_at_file ["callee.h"] 3 "callee.h"
                    (MDLocation 9 "caller.c" MDNull))).
  - reflexivity.
  - discriminate.
Defined.

(** ** The ratio *)

(** X6: a ratio that [runOnModule] goes on with lies between 1 and 100. *)
Theorem accepted_ratio_range (env : Env) (inst_ratio : Z) :
  decide_inst_ratio env = Ok inst_ratio -> 1 <= inst_ratio <= 100.
Proof.
  unfold decide_inst_ratio.
  destruct (getenv env "AFL_INST_RATIO") as [str|].
  - destruct (sscanf_u str) as [v|] eqn:E; [|discriminate].
    destruct (Z.eqb_spec v 0) as [|Hnz]; [discriminate|].
    destruct (Z.ltb_spec 100 v) as [|Hle]; [discriminate|].
    cbn [orb]. intros H; inversion H; subst.
    assert (0 <= inst_ratio).
    { unfold sscanf_u in E. destruct (skip_space str); [discriminate|].
      destruct (scan_digits _ 0 false); [|discriminate].
      inversion E. apply Z.mod_pos_bound. lia. }
    lia.
  - intros H; inversion H; lia.
Qed.

Lemma accepted_ratio_range_witness :
  decide_inst_ratio (env_of [("AFL_INST_RATIO", " 42%")] []) = Ok 42 /\
  1 <= 42 <= 100.
Proof.
  split; [reflexivity|].
  apply (accepted_ratio_range (env_of [("AFL_INST_RATIO", " 42%")] [])).
  reflexivity.
Defined.

(** X7: what the loop body does with a block, for any ratio: the block is
    instrumented exactly when it passes the filter and the draw [R(100)]
    is below the ratio; a block that is not instrumented is left as it
    is and is not counted; a block the filter rejects draws no random
    number. *)
Theorem instrument_block_decision (pass : AFLCoverage) (inst_ratio : Z)
    (BB : BasicBlock) (st : LoopState) :
  let out := instrument_block pass inst_ratio BB st in
  let draw := fst (R 100 (ls_rand st)) in
  ((exists cur_loc, decision_of out = Instrumented cur_loc) <->
   passes_whitelist pass (block_loc BB) = true /\ draw < inst_ratio) /\
  (decision_of out = RatioSkipped <->
   passes_whitelist pass (block_loc BB) = true /\ inst_ratio <= draw) /\
  (decision_of out = NotWhitelisted <->
   passes_whitelist pass (block_loc BB) = false) /\
  ((forall cur_loc, decision_of out <> Instrumented cur_loc) ->
   fst (fst out) = BB /\ inst_blocks (snd out) = inst_blocks st) /\
  (decision_of out = NotWhitelisted -> snd out = st) /\
  ((exists cur_loc, decision_of out = Instrumented cur_loc) ->
   inst_blocks (snd out) = S (inst_blocks st)).
Proof.
  intros out draw. subst out draw.
  destruct (instrument_block_cases pass inst_ratio BB st)
    as [[Hp ->]|[[Hp [Hr ->]]|[Hp [Hr ->]]]];
    unfold decision_of; cbn [fst snd inst_blocks]; rewrite Hp;
    repeat split;
    solve [ intros; first [discriminate | congruence | lia | tauto]
          | intros [c Hc]; discriminate
          | intros [H1 H2]; first [discriminate | lia]
          | intros H; exfalso; eapply H; reflexivity
          | intros; split; auto; lia
          | eauto
          | exfalso;
            match goal with
            | H : exists _, _ |- _ => destruct H; discriminate
            | H : forall _, _ <> _ |- _ => eapply H; reflexivity
            end ].
Qed.

Lemma instrument_block_decision_witness :
  passes_whitelist (mkAFLCoverage []) (block_loc (block_at MDNull)) = true /\
  fst (R 100 (ls_rand (mkLoopState counting_rand 1 0))) < 100 /\
  exists cur_loc,
    decision_of (instrument_block (mkAFLCoverage []) 100 (block_at MDNull)
                   (mkLoopState counting_rand 1 0)) = Instrumented cur_loc.
Proof.
  split; [reflexivity|]. split; [reflexivity|].
  apply (proj1 (instrument_block_decision (mkAFLCoverage []) 100
                  (block_at MDNull) (mkLoopState counting_rand 1 0))).
  split; reflexivity.
Defined.

(** ** The module after the pass *)

Lemma combine_app_same {A B : Type} (l1 l2 : list A) (k1 k2 : list B) :
  List.length l1 = List.length k1 ->
  combine (l1 ++ l2) (k1 ++ k2) = (combine l1 k1 ++ combine l2 k2)%list.
Proof.
  revert k1. induction l1 as [|a l1 IH]; intros [|b k1] H; simpl in *;
    try discriminate; [reflexivity|].
  rewrite IH by lia. reflexivity.
Qed.

Section BlockRelation.

Variable pass : AFLCoverage.
Variable inst_ratio : Z.
Variable Q : BasicBlock -> BasicBlock * Decision -> Prop.
Hypothesis block_related :
  forall BB st,
    Q BB (fst (fst (instrument_block pass inst_ratio BB st)),
          decision_of (instrument_block pass inst_ratio BB st)).

Lemma instrument_blocks_related (BBs : list BasicBlock) :
  forall st,
    let out := instrument_blocks pass inst_ratio BBs st in
    Forall2 Q BBs (combine (fst (fst out)) (snd (fst out))) /\
    List.length (fst (fst out)) = List.length BBs /\
    List.length (snd (fst out)) = List.length BBs.
Proof.
  induction BBs as [|BB rest IH]; intros st; simpl.
  - repeat split. constructor.
  - pose proof (block_related BB st) as Hb. unfold decision_of in Hb.
    destruct (instrument_block pass inst_ratio BB st) as [[BB' d] st1].
    specialize (IH st1).
    destruct (instrument_blocks pass inst_ratio rest st1) as [[rest' ds] st2].
    simpl in *. destruct IH as [IH1 [IH2 IH3]].
    repeat split; [constructor; assumption | lia | lia].
Qed.

Lemma instrument_functions_related (Fs : list Function) :
  forall st,
    let out := instrument_functions pass inst_ratio Fs st in
    Forall2 Q (List.concat Fs)
      (combine (List.concat (fst (fst out))) (snd (fst out))) /\
    map (@List.length BasicBlock) (fst (fst out)) = map (@List.length BasicBlock) Fs /\
    List.length (snd (fst out)) = List.length (List.concat Fs).
Proof.
  induction Fs as [|F rest IH]; intros st; simpl.
  - repeat split. constructor.
  - pose proof (instrument_blocks_related F st) as Hb.
    destruct (instrument_blocks pass inst_ratio F st) as [[F' ds1] st1].
    specialize (IH st1).
    destruct (instrument_functions pass inst_ratio rest st1)
      as [[rest' ds2] st2].
    simpl in *. destruct Hb as [Hb1 [Hb2 Hb3]]. destruct IH as [IH1 [IH2 IH3]].
    repeat split.
    + rewrite combine_app_same by lia. apply Forall2_app; assumption.
    + congruence.
    + rewrite !List.length_app. lia.
Qed.

End BlockRelation.

Lemma instrument_block_unchanged_or_instrumented (pass : AFLCoverage)
    (inst_ratio : Z) (BB : BasicBlock) (st : LoopState) :
  unchanged_or_instrumented BB
    (fst (fst (instrument_block pass inst_ratio BB st)),
     decision_of (instrument_block pass inst_ratio BB st)).
Proof.
  unfold unchanged_or_instrumented, decision_of.
  destruct (instrument_block_cases pass inst_ratio BB st)
    as [[_ ->]|[[_ [_ ->]]|[_ [_ ->]]]]; cbn [fst snd]; eauto.
Qed.

(** The shape of the module after a run. *)
Lemma runOnModule_shape (pass : AFLCoverage) (env : Env)
    (g : Rand) (M : Module) (inst_ratio : Z) :
  decide_inst_ratio env = Ok inst_ratio ->
  let out := runOnModule pass env g M in
  map (@List.length BasicBlock) (mod_functions (out_module out))
    = map (@List.length BasicBlock) (mod_functions M) /\
  List.length (decisions out) = List.length (module_blocks M) /\
  Forall2 unchanged_or_instrumented (module_blocks M)
    (combine (module_blocks (out_module out)) (decisions out)).
Proof.
  intros Hr out. subst out. unfold runOnModule, module_blocks. rewrite Hr.
  pose proof (instrument_functions_related pass inst_ratio
                unchanged_or_instrumented
                (instrument_block_unchanged_or_instrumented pass inst_ratio)
                (mod_functions M) (mkLoopState g (mod_next_id M) 0)) as H.
  destruct (instrument_functions pass inst_ratio (mod_functions M) _)
    as [[Fs ds] st].
  cbn [fst snd out_module decisions mod_functions mod_globals] in *.
  destruct H as [H1 [H2 H3]]. auto.
Qed.

(** X8: a run that gets past the ratio keeps the shape of the module: as
    many functions, as many blocks in each, in the same order; every
    block is either left as it is or has the code for its [cur_loc]
    inserted at its first insertion point, nothing of it being removed or
    moved; and one decision is taken per block. *)
Theorem runOnModule_keeps_module_shape (pass : AFLCoverage) (env : Env)
    (g : Rand) (M : Module) (inst_ratio : Z) :
  decide_inst_ratio env = Ok inst_ratio ->
  let out := runOnModule pass env g M in
  map (@List.length BasicBlock) (mod_functions (out_module out))
    = map (@List.length BasicBlock) (mod_functions M) /\
  List.length (decisions out) = List.length (module_blocks M) /\
  Forall2 unchanged_or_instrumented (module_blocks M)
    (combine (module_blocks (out_module out)) (decisions out)).
Proof.
  exact (runOnModule_shape pass env g M inst_ratio).
Qed.

Lemma runOnModule_keeps_module_shape_witness :
  decide_inst_ratio (env_of [] []) = Ok 100 /\
  List.length (decisions (runOnModule (mkAFLCoverage ["a.c"]) (env_of [] [])
                       counting_rand
                       (mkModule [] [[block_at MDNull];
                                     [block_at (MDLocation 1 "a.c" MDNull)]]
                          1)))
  = List.length (module_blocks
              (mkModule [] [[block_at MDNull];
                            [block_at (MDLocation 1 "a.c" MDNull)]] 1)).
Proof.
  split; [reflexivity|].
  apply (runOnModule_keeps_module_shape (mkAFLCoverage ["a.c"])
           (env_of [] []) counting_rand
           (mkModule [] [[block_at MDNull];
                         [block_at (MDLocation 1 "a.c" MDNull)]] 1) 100).
  reflexivity.
Defined.

(** ** The count and the report *)

Lemma instrument_block_count (pass : AFLCoverage) (inst_ratio : Z)
    (BB : BasicBlock) (st : LoopState) :
  inst_blocks (snd (instrument_block pass inst_ratio BB st))
  = (inst_blocks st
     + count_instrumented
         [decision_of (instrument_block pass inst_ratio BB st)])%nat.
Proof.
  unfold decision_of.
  destruct (instrument_block_cases pass inst_ratio BB st)
    as [[_ ->]|[[_ [_ ->]]|[_ [_ ->]]]]; cbn; lia.
Qed.

Lemma count_instrumented_app (ds1 ds2 : list Decision) :
  count_instrumented (ds1 ++ ds2)
  = (count_instrumented ds1 + count_instrumented ds2)%nat.
Proof.
  induction ds1 as [|[| |c] ds1 IH]; simpl; lia.
Qed.

Lemma instrument_blocks_count (pass : AFLCoverage) (inst_ratio : Z)
    (BBs : list BasicBlock) :
  forall st,
    inst_blocks (snd (instrument_blocks pass inst_ratio BBs st))
    = (inst_blocks st
       + count_instrumented
           (snd (fst (instrument_blocks pass inst_ratio BBs st))))%nat.
Proof.
  induction BBs as [|BB rest IH]; intros st; simpl; [lia|].
  pose proof (instrument_block_count pass inst_ratio BB st) as Hb.
  unfold decision_of in Hb.
  destruct (instrument_block pass inst_ratio BB st) as [[BB' d] st1].
  specialize (IH st1).
  destruct (instrument_blocks pass inst_ratio rest st1) as [[rest' ds] st2].
  cbn [fst snd] in *.
  change (d :: ds) with ([d] ++ ds)%list. rewrite count_instrumented_app. lia.
Qed.

Lemma instrument_functions_count (pass : AFLCoverage) (inst_ratio : Z)
    (Fs : list Function) :
  forall st,
    inst_blocks (snd (instrument_functions pass inst_ratio Fs st))
    = (inst_blocks st
       + count_instrumented
           (snd (fst (instrument_functions pass inst_ratio Fs st))))%nat.
Proof.
  induction Fs as [|F rest IH]; intros st; simpl; [lia|].
  pose proof (instrument_blocks_count pass inst_ratio F st) as Hb.
  destruct (instrument_blocks pass inst_ratio F st) as [[F' ds1] st1].
  specialize (IH st1).
  destruct (instrument_functions pass inst_ratio rest st1)
    as [[rest' ds2] st2].
  cbn [fst snd] in *. rewrite count_instrumented_app. lia.
Qed.

(** What a run prints, by the number of instrumented blocks. *)
Lemma runOnModule_printed (pass : AFLCoverage) (env : Env) (g : Rand)
    (M : Module) (inst_ratio : Z) :
  decide_inst_ratio env = Ok inst_ratio ->
  let out := runOnModule pass env g M in
  let n := count_instrumented (decisions out) in
  returned out = Ok true /\
  printed out =
  if isatty env 2 && negb (is_some (getenv env "AFL_QUIET"))
  then [Banner;
        if Nat.eqb n 0 then NoTargets
        else InstrumentedLocations n (is_some (getenv env "AFL_HARDEN"))
               inst_ratio]
  else [].
Proof.
  intros Hr out n. subst out n. unfold runOnModule. rewrite Hr.
  pose proof (instrument_functions_count pass inst_ratio (mod_functions M)
                (mkLoopState g (mod_next_id M) 0)) as Hc.
  destruct (instrument_functions pass inst_ratio (mod_functions M) _)
    as [[Fs ds] st].
  cbn [fst snd returned printed decisions inst_blocks] in *.
  rewrite Nat.add_0_l in Hc. rewrite Hc.
  split; [reflexivity|].
  destruct (isatty env 2 && negb (is_some (getenv env "AFL_QUIET")));
    cbn [negb]; [|reflexivity].
  destruct (Nat.eqb (count_instrumented ds) 0); reflexivity.
Qed.

(** X9: what a run that gets past the ratio prints.  On a terminal and
    without AFL_QUIET it is the banner and then either the warning that
    nothing was instrumented, when no block was, or the summary with the
    number of instrumented blocks, the AFL_HARDEN flag and the ratio; in
    any other case nothing is printed.  The pass returns [true] either
    way. *)
Theorem runOnModule_report (pass : AFLCoverage) (env : Env) (g : Rand)
    (M : Module) (inst_ratio : Z) :
  decide_inst_ratio env = Ok inst_ratio ->
  let out := runOnModule pass env g M in
  let n := count_instrumented (decisions out) in
  returned out = Ok true /\
  printed out =
  if isatty env 2 && negb (is_some (getenv env "AFL_QUIET"))
  then [Banner;
        if Nat.eqb n 0 then NoTargets
        else InstrumentedLocations n (is_some (getenv env "AFL_HARDEN"))
               inst_ratio]
  else [].
Proof.
  exact (runOnModule_printed pass env g M inst_ratio).
Qed.

Lemma runOnModule_report_witness :
  decide_inst_ratio
    (mkEnv (fun _ => None) (fun _ => true) (fun _ => None)) = Ok 100 /\
  printed (runOnModule (mkAFLCoverage ["a.c"])
             (mkEnv (fun _ => None) (fun _ => true) (fun _ => None))
             counting_rand (mkModule [] [[block_at MDNull]] 1))
  = [Banner; NoTargets].
Proof.
  split; [reflexivity|].
  apply (runOnModule_report (mkAFLCoverage ["a.c"])
           (mkEnv (fun _ => None) (fun _ => true) (fun _ => None))
           counting_rand (mkModule [] [[block_at MDNull]] 1) 100).
  reflexivity.
Defined.

(** ** The inserted code and where it goes *)

(** X10: the code built for a block is nine instructions with the
    identifiers the builder hands out one after the other; each carries
    the debug location of the instruction the builder was set up at; and
    the instructions marked [nosanitize] are exactly its loads and
    stores. *)
Theorem coverage_code_shape (cur_loc : Z) (next : nat) (Loc : DebugLoc) :
  map inst_id (coverage_code cur_loc next Loc) = seq next 9 /\
  Forall (fun i => inst_dbg i = Loc) (coverage_code cur_loc next Loc) /\
  Forall (fun i => inst_nosanitize i = is_memory_access (inst_op i))
         (coverage_code cur_loc next Loc) /\
  irb_next (snd (insert_coverage cur_loc (mkIRBuilder next Loc [])))
    = (next + 9)%nat.
Proof.
  rewrite coverage_code_eq. split; [reflexivity|].
  split; [repeat constructor|]. split; [repeat constructor|].
  unfold insert_coverage. repeat irb_step.
  cbv [setMetadata_nosanitize snd irb_next]. lia.
Qed.

Lemma getFirstNonPHI_le (BB : BasicBlock) :
  (getFirstNonPHI BB <= List.length BB)%nat.
Proof.
  induction BB as [|i BB IH]; simpl; [lia|].
  destruct (inst_op i); simpl; lia.
Qed.

Lemma getFirstNonPHI_not_PHI (BB : BasicBlock) (i : Instruction) :
  nth_error BB (getFirstNonPHI BB) = Some i -> is_PHI i = false.
Proof.
  unfold is_PHI. induction BB as [|j BB IH]; simpl; [discriminate|].
  destruct (inst_op j) eqn:E; simpl; try (intros H; inversion H; subst;
    rewrite E; reflexivity).
  exact IH.
Qed.

Lemma getFirstNonPHI_prefix (BB X : list Instruction) :
  match X with [] => True | i :: _ => is_PHI i = false end ->
  getFirstNonPHI (firstn (getFirstNonPHI BB) BB ++ X)%list
  = getFirstNonPHI BB.
Proof.
  intros HX. induction BB as [|j BB IH]; simpl.
  - destruct X as [|i X]; [reflexivity|]. simpl.
    unfold is_PHI in HX. destruct (inst_op i); try reflexivity. discriminate.
  - destruct (inst_op j) eqn:E; simpl; try rewrite E; try rewrite IH;
      try reflexivity;
      (destruct X as [|i X]; [reflexivity|]; simpl;
       unfold is_PHI in HX; destruct (inst_op i); try reflexivity;
       discriminate).
Qed.

Lemma getFirstInsertionPt_le (BB : BasicBlock) :
  (getFirstInsertionPt BB <= List.length BB)%nat.
Proof.
  unfold getFirstInsertionPt.
  pose proof (getFirstNonPHI_le BB) as Hle.
  destruct (nth_error BB (getFirstNonPHI BB)) as [i|] eqn:E; [|exact Hle].
  assert (getFirstNonPHI BB < List.length BB)%nat
    by (apply nth_error_Some; congruence).
  destruct (inst_op i); lia.
Qed.

Lemma firstn_S_nth_error {A : Type} (l : list A) (n : nat) (a : A) :
  nth_error l n = Some a -> firstn (S n) l = (firstn n l ++ [a])%list.
Proof.
  revert n. induction l as [|b l IH]; intros [|n] H;
    cbn [nth_error] in H; try discriminate.
  - inversion H; reflexivity.
  - change (firstn (S (S n)) (b :: l)) with (b :: firstn (S n) l).
    rewrite (IH n H). reflexivity.
Qed.

(** Inserting code that starts with an instruction that is neither a
    PHI node nor a landing pad, at the first insertion point of a block,
    leaves that insertion point where it was: the PHI nodes and the landing
    pad stay in front, the inserted code starts at the insertion point, and
    the rest of the block follows it unchanged. *)
Lemma insertion_keeps_insertion_point (BB : BasicBlock)
    (i0 : Instruction) (code : list Instruction) :
  is_PHI i0 = false ->
  is_LandingPad i0 = false ->
  let IP := getFirstInsertionPt BB in
  let BB' := insert_at BB IP (i0 :: code) in
  getFirstInsertionPt BB' = IP /\
  nth_error BB' IP = Some i0 /\
  firstn IP BB' = firstn IP BB /\
  skipn (IP + List.length (i0 :: code)) BB' = skipn IP BB.
Proof.
  intros Hphi Hlp IP BB'.
  pose proof (getFirstInsertionPt_le BB) as Hle. fold IP in Hle.
  assert (Hlen : List.length (firstn IP BB) = IP)
    by (rewrite List.length_firstn; lia).
  assert (Hnth : nth_error BB' IP = Some i0).
  { unfold BB', insert_at. rewrite nth_error_app2 by lia.
    rewrite Hlen, Nat.sub_diag. reflexivity. }
  assert (Hfirst : firstn IP BB' = firstn IP BB).
  { unfold BB', insert_at. rewrite firstn_app, Hlen, Nat.sub_diag.
    rewrite firstn_firstn, Nat.min_id. simpl. apply app_nil_r. }
  assert (Hskip : skipn (IP + List.length (i0 :: code)) BB' = skipn IP BB).
  { unfold BB', insert_at. rewrite app_assoc.
    rewrite skipn_app.
    rewrite List.length_app, Hlen, Nat.sub_diag.
    rewrite skipn_all2 by (rewrite List.length_app, Hlen; lia).
    reflexivity. }
  split; [|auto].
  unfold getFirstInsertionPt.
  set (n := getFirstNonPHI BB).
  assert (HIP : IP = match nth_error BB n with
                     | Some i => match inst_op i with
                                 | LandingPad _ => S n | _ => n end
                     | None => n end) by reflexivity.
  destruct (nth_error BB n) as [i|] eqn:En.
  - pose proof (getFirstNonPHI_not_PHI BB i En) as Hi.
    destruct (is_LandingPad i) eqn:Hl.
    + assert (HS : IP = S n).
      { rewrite HIP. unfold is_LandingPad in Hl.
        destruct (inst_op i); try discriminate. reflexivity. }
      assert (Hg : getFirstNonPHI BB' = n).
      { unfold BB', insert_at. rewrite HS.
        rewrite (firstn_S_nth_error BB n i En), <- app_assoc.
        apply getFirstNonPHI_prefix. exact Hi. }
      rewrite Hg.
      assert (Hn : nth_error BB' n = Some i).
      { pose proof (getFirstNonPHI_le BB) as Hnle. fold n in Hnle.
        unfold BB', insert_at. rewrite HS.
        rewrite (firstn_S_nth_error BB n i En), <- app_assoc.
        rewrite nth_error_app2 by (rewrite List.length_firstn; lia).
        rewrite List.length_firstn.
        replace (n - Nat.min n (List.length BB))%nat with 0%nat by lia.
        reflexivity. }
      rewrite Hn. unfold is_LandingPad in Hl.
      destruct (inst_op i); try discriminate. symmetry; exact HS.
    + assert (Hn : IP = n).
      { rewrite HIP. unfold is_LandingPad in Hl.
        destruct (inst_op i); try reflexivity. discriminate. }
      assert (Hg : getFirstNonPHI BB' = n).
      { unfold BB', insert_at. rewrite Hn.
        apply getFirstNonPHI_prefix. exact Hphi. }
      rewrite Hg. rewrite Hn in Hnth. rewrite Hnth.
      unfold is_LandingPad in Hlp.
      destruct (inst_op i0); try discriminate; symmetry; exact Hn.
  - assert (Hg : getFirstNonPHI BB' = n).
    { unfold BB', insert_at. rewrite HIP.
      apply getFirstNonPHI_prefix. exact Hphi. }
    rewrite Hg. rewrite HIP in Hnth. rewrite Hnth.
    unfold is_LandingPad in Hlp.
    destruct (inst_op i0); try discriminate; symmetry; exact HIP.
Qed.

Lemma insertion_keeps_insertion_point_witness :
  is_PHI (mkInstruction 5 (OtherInst 1) false MDNull) = false /\
  is_LandingPad (mkInstruction 5 (OtherInst 1) false MDNull) = false /\
  getFirstInsertionPt
    (insert_at
       [mkInstruction 0 (PHI 0) false MDNull;
        mkInstruction 1 (LandingPad 0) false MDNull;
        mkInstruction 2 (OtherInst 0) false MDNull]
       (getFirstInsertionPt
          [mkInstruction 0 (PHI 0) false MDNull;
           mkInstruction 1 (LandingPad 0) false MDNull;
           mkInstruction 2 (OtherInst 0) false MDNull])
       [mkInstruction 5 (OtherInst 1) false MDNull]) = 2%nat.
Proof.
  split; [reflexivity|]. split; [reflexivity|].
  apply (insertion_keeps_insertion_point
           [mkInstruction 0 (PHI 0) false MDNull;
            mkInstruction 1 (LandingPad 0) false MDNull;
            mkInstruction 2 (OtherInst 0) false MDNull]
           (mkInstruction 5 (OtherInst 1) false MDNull) []);
    reflexivity.
Defined.

(** X11: an instrumented block has its first insertion point where the
    original block had it, and the instruction found there, the first of
    the inserted code, has the debug location the original one had; so the
    whitelist filter decides for the instrumented block as it did for the
    original, and what was in the block follows the nine inserted
    instructions unchanged. *)
Theorem instrumented_block_keeps_location (BB : BasicBlock) (cur_loc : Z)
    (next : nat) :
  let IP := getFirstInsertionPt BB in
  let BB' := insert_at BB IP (coverage_code cur_loc next (block_loc BB)) in
  getFirstInsertionPt BB' = IP /\
  block_loc BB' = block_loc BB /\
  (forall pass, passes_whitelist pass (block_loc BB')
                = passes_whitelist pass (block_loc BB)) /\
  firstn IP BB' = firstn IP BB /\
  skipn (IP + 9) BB' = skipn IP BB.
Proof.
  intros IP BB'. subst IP BB'. rewrite coverage_code_eq.
  match goal with
  | |- context [insert_at BB _ (?i :: ?code)] =>
      destruct (insertion_keeps_insertion_point BB i code eq_refl eq_refl)
        as [H1 [H2 [H3 H4]]];
      cbn [List.length] in H4;
      set (BB' := insert_at BB (getFirstInsertionPt BB) (i :: code)) in *
  end.
  assert (Hloc : block_loc BB' = block_loc BB).
  { unfold block_loc at 1, debugLocAt. rewrite H1, H2. reflexivity. }
  split; [exact H1|]. split; [exact Hloc|]. split; [|split].
  - intros pass. now rewrite Hloc.
  - exact H3.
  - exact H4.
Qed.

(** ** Running instrumented code *)

Lemma exec_app (m : Machine) (code1 code2 : list Instruction) :
  exec m (code1 ++ code2) =
  match exec m code1 with
  | Some m' => exec m' code2
  | None => None
  end.
Proof.
  revert m. induction code1 as [|i code1 IH]; intros m; simpl.
  - reflexivity.
  - destruct (exec_inst m i); [apply IH | reflexivity].
Qed.

Lemma exec_coverage_code_registers (m : Machine) (c : Z) (next : nat)
    (Loc : DebugLoc) :
  exists m',
    exec m (coverage_code c next Loc) = Some m' /\
    (forall r, (r < next \/ next + 9 <= r)%nat -> regs m' r = regs m r).
Proof.
  rewrite coverage_code_eq.
  repeat exec_step.
  eexists. split; [reflexivity|].
  cbv [regs]. intros r Hr. resolve_eqb. reflexivity.
Qed.

(** X12: the inserted code touches nothing but its own nine registers,
    the global [__afl_prev_loc] and one byte of memory, the bitmap cell of
    the edge: every other register, every other global, the bitmap
    pointer among them, and every other byte are as before. *)
Theorem inserted_code_frame (m : Machine) (cur_loc : Z) (next : nat)
    (Loc : DebugLoc) :
  0 <= cur_loc < 2 ^ 32 ->
  exists m',
    exec m (coverage_code cur_loc next Loc) = Some m' /\
    (forall r, (r < next \/ next + 9 <= r)%nat -> regs m' r = regs m r) /\
    (forall n, n <> "__afl_prev_loc" -> globals m' n = globals m n) /\
    (forall a,
       a <> cell_addr m (edge_id cur_loc (wrap Int16Ty (prev_loc m))) ->
       memory m' a = memory m a).
Proof.
  intros Hc.
  destruct (exec_coverage_code_registers m cur_loc next Loc)
    as [m1 [Hex1 Hregs]].
  destruct (exec_coverage_code_raw m cur_loc next Loc)
    as [m2 [Hex2 [Hg _]]].
  destruct (exec_coverage_code_uint m cur_loc next Loc Hc)
    as [m3 [Hex3 [_ [_ [_ [Hmem _]]]]]].
  assert (m2 = m1) by congruence. assert (m3 = m1) by congruence. subst.
  exists m1. split; [exact Hex1|]. split; [exact Hregs|]. split.
  - intros n Hn. rewrite Hg.
    destruct (String.eqb_spec n "__afl_prev_loc"); [contradiction|].
    reflexivity.
  - intros a Ha. rewrite Hmem.
    destruct (Z.eqb_spec a
                (cell_addr m (edge_id cur_loc (wrap Int16Ty (prev_loc m)))));
      [contradiction | reflexivity].
Qed.

Lemma inserted_code_frame_witness :
  0 <= 300 < 2 ^ 32 /\
  exists m',
    exec (machine_of 50 4096) (coverage_code 300 4 MDNull) = Some m' /\
    area_ptr m' = 4096.
Proof.
  split; [lia|].
  destruct (inserted_code_frame (machine_of 50 4096) 300 4 MDNull)
    as [m' [Hex [_ [Hg _]]]]; [lia|].
  exists m'. split; [exact Hex|].
  unfold area_ptr. rewrite Hg; [reflexivity | discriminate].
Defined.

Lemma hits_cons (o e : Z) (l : list Z) :
  hits o (e :: l) = (if o =? e then 1 else 0) + hits o l.
Proof.
  unfold hits. destruct (Z.eqb_spec o e) as [->|Hne].
  - rewrite count_occ_cons_eq by reflexivity. lia.
  - rewrite count_occ_cons_neq by congruence. lia.
Qed.

Lemma hits_nonneg (o : Z) (l : list Z) : 0 <= hits o l.
Proof. unfold hits. lia. Qed.

Lemma last_cons_default {A : Type} (a d : A) (l : list A) :
  last (a :: l) d = last l a.
Proof.
  revert a d. induction l as [|b l IH]; intros a d; [reflexivity|].
  change (last (a :: b :: l) d) with (last (b :: l) d).
  rewrite (IH b d), (IH b a). reflexivity.
Qed.

(** Running the code of a path, block after block. *)
Lemma exec_path_code (path : list (Z * nat * DebugLoc)) :
  forall m,
    Forall (fun b => 0 <= fst (fst b) < MAP_SIZE) path ->
    exists m',
      exec m (path_code path) = Some m' /\
      area_ptr m' = area_ptr m /\
      prev_loc m'
        = last (map (fun b => Z.shiftr (fst (fst b)) 1) path) (prev_loc m) /\
      forall o,
        0 <= o < 2 ^ 64 ->
        bitmap m' o =
        let k := hits o (edges_of (wrap Int16Ty (prev_loc m))
                           (map (fun b => fst (fst b)) path)) in
        if k =? 0 then bitmap m o else (bitmap m o + k) mod 256.
Proof.
  induction path as [|[[c next] Loc] rest IH]; intros m Hall.
  - exists m. repeat split. 
  - inversion Hall as [|? ? Hc Hrest]; subst. cbn [fst snd] in Hc.
    destruct (exec_coverage_code m c next Loc Hc)
      as [m1 [Hex1 [Hprev1 [Hptr1 [_ [_ Hbm1]]]]]].
    destruct (IH m1 Hrest) as [m' [Hex [Hptr [Hprev Hbm]]]].
    exists m'. split; [|split; [|split]].
    + change (path_code ((c, next, Loc) :: rest))
        with (coverage_code c next Loc ++ path_code rest)%list.
      rewrite exec_app, Hex1. exact Hex.
    + congruence.
    + cbn [map fst snd]. rewrite last_cons_default, Hprev, Hprev1.
      reflexivity.
    + intros o Ho. rewrite (Hbm o Ho), (Hbm1 o Ho).
      cbn [map fst snd edges_of]. cbv zeta.
      pose proof (shiftr1_bound c Hc) as Hs.
      assert (Hw : wrap Int16Ty (prev_loc m1) = Z.shiftr c 1).
      { rewrite Hprev1. unfold wrap; simpl bitwidth.
        apply Z.mod_small. lia. }
      rewrite Hw, hits_cons.
      set (k' := hits o (edges_of (Z.shiftr c 1)
                           (map (fun b => fst (fst b)) rest))).
      pose proof (hits_nonneg o (edges_of (Z.shiftr c 1)
                                   (map (fun b => fst (fst b)) rest))) as Hk.
      fold k' in Hk.
      destruct (Z.eqb_spec o (edge_id c (wrap Int16Ty (prev_loc m))))
        as [He|He].
      * destruct (Z.eqb_spec (1 + k') 0); [lia|].
        destruct (Z.eqb_spec k' 0) as [->|].
        -- rewrite Z.add_0_r. reflexivity.
        -- rewrite Z.add_mod_idemp_l by lia. f_equal. lia.
      * rewrite Z.add_0_l. reflexivity.
Qed.

(** X13: when the instrumented blocks of a path run one after the other,
    each bitmap cell ends up with its old value plus the number of edges
    of the path that fall on it, modulo 256 (a cell no edge falls on is
    untouched); the edges are [cur_loc XOR prev], where [prev] is what the
    register held at first and then the [cur_loc >> 1] of the block before;
    the register ends with the [cur_loc >> 1] of the last block and the
    bitmap pointer is never changed. *)
Theorem path_updates_bitmap (path : list (Z * nat * DebugLoc)) :
  forall m,
    Forall (fun b => 0 <= fst (fst b) < MAP_SIZE) path ->
    exists m',
      exec m (path_code path) = Some m' /\
      area_ptr m' = area_ptr m /\
      prev_loc m'
        = last (map (fun b => Z.shiftr (fst (fst b)) 1) path) (prev_loc m) /\
      forall o,
        0 <= o < 2 ^ 64 ->
        bitmap m' o =
        let k := hits o (edges_of (wrap Int16Ty (prev_loc m))
                           (map (fun b => fst (fst b)) path)) in
        if k =? 0 then bitmap m o else (bitmap m o + k) mod 256.
Proof.
  exact (exec_path_code path).
Qed.

Lemma path_updates_bitmap_witness :
  Forall (fun b => 0 <= fst (fst b) < MAP_SIZE)
         [(100, 0%nat, MDNull); (300, 9%nat, MDNull)] /\
  exists m',
    exec (machine_of 0 4096)
      (path_code [(100, 0%nat, MDNull); (300, 9%nat, MDNull)]) = Some m' /\
    prev_loc m' = 150.
Proof.
  assert (H : Forall (fun b => 0 <= fst (fst b) < MAP_SIZE)
                [(100, 0%nat, MDNull); (300, 9%nat, MDNull)]).
  { constructor; [cbn [fst]; rewrite MAP_SIZE_value; lia|].
    constructor; [cbn [fst]; rewrite MAP_SIZE_value; lia|].
    constructor. }
  split; [exact H|].
  destruct (path_updates_bitmap [(100, 0%nat, MDNull); (300, 9%nat, MDNull)]
              (machine_of 0 4096) H) as [m' [Hex [_ [Hprev _]]]].
  exists m'. split; [exact Hex | exact Hprev].
Defined.

Lemma edges_of_repeat (c : Z) (n : nat) :
  edges_of (Z.shiftr c 1) (repeat c n)
  = repeat (edge_id c (Z.shiftr c 1)) n.
Proof.
  induction n as [|n IH]; simpl; [reflexivity | now rewrite IH].
Qed.

Lemma hits_repeat (o e : Z) (n : nat) :
  hits o (repeat e n) = if o =? e then Z.of_nat n else 0.
Proof.
  unfold hits. destruct (Z.eqb_spec o e) as [->|Hne].
  - now rewrite count_occ_repeat_eq.
  - now rewrite count_occ_repeat_neq.
Qed.

Lemma last_repeat {A : Type} (x : A) (n : nat) : last (repeat x n) x = x.
Proof.
  induction n as [|n IH]; [reflexivity|].
  change (repeat x (S n)) with (x :: repeat x n).
  rewrite last_cons_default. exact IH.
Qed.

(** X14: the hit counts wrap around.  When a block loops on itself [n]
    times, [n] at least 1, starting with its own [cur_loc >> 1] as
    previous location, the cell of its self-loop edge holds the old
    value plus [n] modulo 256 and all other cells are untouched; so after
    256 rounds a cell that held a byte holds that byte again. *)
Theorem self_loop_counter_wraps (m : Machine) (cur_loc : Z) (next : nat)
    (Loc : DebugLoc) (n : nat) :
  0 <= cur_loc < MAP_SIZE ->
  prev_loc m = Z.shiftr cur_loc 1 ->
  (0 < n)%nat ->
  exists m',
    exec m (path_code (repeat (cur_loc, next, Loc) n)) = Some m' /\
    prev_loc m' = Z.shiftr cur_loc 1 /\
    (forall o, 0 <= o < 2 ^ 64 ->
       bitmap m' o =
       if o =? edge_id cur_loc (Z.shiftr cur_loc 1)
       then (bitmap m o + Z.of_nat n) mod 256
       else bitmap m o) /\
    (n = 256%nat ->
     0 <= bitmap m (edge_id cur_loc (Z.shiftr cur_loc 1)) < 256 ->
     forall o, 0 <= o < 2 ^ 64 -> bitmap m' o = bitmap m o).
Proof.
  intros Hc Hprev Hn.
  assert (Hall : Forall (fun b => 0 <= fst (fst b) < MAP_SIZE)
                        (repeat (cur_loc, next, Loc) n)).
  { apply Forall_forall. intros b Hb. apply repeat_spec in Hb. now subst. }
  destruct (exec_path_code _ m Hall) as [m' [Hex [_ [Hlast Hbm]]]].
  pose proof (shiftr1_bound cur_loc Hc) as Hs.
  assert (Hw : wrap Int16Ty (prev_loc m) = Z.shiftr cur_loc 1).
  { rewrite Hprev. unfold wrap; simpl bitwidth. apply Z.mod_small. lia. }
  rewrite map_repeat in Hlast. cbn [fst snd] in Hlast.
  rewrite Hprev, last_repeat in Hlast.
  assert (Hcells : forall o, 0 <= o < 2 ^ 64 ->
            bitmap m' o =
            if o =? edge_id cur_loc (Z.shiftr cur_loc 1)
            then (bitmap m o + Z.of_nat n) mod 256
            else bitmap m o).
  { intros o Ho. rewrite (Hbm o Ho). cbv zeta.
    rewrite map_repeat. cbn [fst snd]. rewrite Hw, edges_of_repeat.
    rewrite hits_repeat.
    destruct (Z.eqb_spec o (edge_id cur_loc (Z.shiftr cur_loc 1))).
    - destruct (Z.eqb_spec (Z.of_nat n) 0); [lia | reflexivity].
    - reflexivity. }
  exists m'. split; [exact Hex|]. split; [exact Hlast|].
  split; [exact Hcells|].
  intros -> Hbyte o Ho. rewrite (Hcells o Ho).
  destruct (Z.eqb_spec o (edge_id cur_loc (Z.shiftr cur_loc 1))) as [->|];
    [|reflexivity].
  change (Z.of_nat 256) with (1 * 256).
  rewrite Z_mod_plus_full. apply Z.mod_small. exact Hbyte.
Qed.

Lemma self_loop_counter_wraps_witness :
  0 <= 300 < MAP_SIZE /\
  prev_loc (machine_of 150 4096) = Z.shiftr 300 1 /\
  (0 < 256)%nat /\
  exists m',
    exec (machine_of 150 4096)
      (path_code (repeat (300, 0%nat, MDNull) 256)) = Some m' /\
    bitmap m' 442 = bitmap (machine_of 150 4096) 442.
Proof.
  assert (Hc : 0 <= 300 < MAP_SIZE) by (rewrite MAP_SIZE_value; lia).
  split; [exact Hc|]. split; [reflexivity|]. split; [lia|].
  destruct (self_loop_counter_wraps (machine_of 150 4096) 300 0 MDNull 256
              Hc eq_refl ltac:(lia)) as [m' [Hex [_ [_ Hback]]]].
  exists m'. split; [exact Hex|].
  apply Hback; [reflexivity | | lia].
  change (bitmap (machine_of 150 4096) (edge_id 300 (Z.shiftr 300 1)))
    with 0.
  lia.
Defined.

Lemma lxor_swap (x y a b : Z) :
  Z.lxor (Z.lxor x b) (Z.lxor y a) = Z.lxor (Z.lxor x y) (Z.lxor a b).
Proof.
  apply Z.bits_inj'. intros n Hn. rewrite !Z.lxor_spec.
  destruct (Z.testbit x n), (Z.testbit y n), (Z.testbit a n),
    (Z.testbit b n); reflexivity.
Qed.

(** X15: storing [cur_loc >> 1] rather than [cur_loc] tells the two
    directions of an edge apart: for two blocks with different
    [cur_loc]s, the cell updated when the second runs after the first is
    not the cell updated when the first runs after the second. *)
Theorem edge_directions_differ (a b : Z) :
  0 <= a -> 0 <= b -> a <> b ->
  edge_id b (Z.shiftr a 1) <> edge_id a (Z.shiftr b 1) /\
  nth 1 (edges_of 0 [a; b]) 0 <> nth 1 (edges_of 0 [b; a]) 0.
Proof.
  intros Ha Hb Hne.
  assert (H : edge_id b (Z.shiftr a 1) <> edge_id a (Z.shiftr b 1)).
  { unfold edge_id. intros E.
    assert (E0 : Z.lxor (Z.lxor (Z.shiftr a 1) b) (Z.lxor (Z.shiftr b 1) a)
                 = 0) by (rewrite E; apply Z.lxor_nilpotent).
    rewrite lxor_swap in E0. apply Z.lxor_eq in E0.
    rewrite <- Z.shiftr_lxor in E0.
    set (d := Z.lxor a b) in *.
    assert (Hd : 0 <= d) by (apply Z.lxor_nonneg; lia).
    rewrite Z.shiftr_div_pow2 in E0 by lia. change (2 ^ 1) with 2 in E0.
    assert (d = 0).
    { pose proof (Z.div_mod d 2 ltac:(lia)) as Hdm.
      pose proof (Z.mod_pos_bound d 2 ltac:(lia)). lia. }
    apply Hne. apply Z.lxor_eq. assumption. }
  split; [exact H|]. exact H.
Qed.

Lemma edge_directions_differ_witness :
  0 <= 100 /\ 0 <= 300 /\ 100 <> 300 /\
  edge_id 300 (Z.shiftr 100 1) <> edge_id 100 (Z.shiftr 300 1).
Proof.
  split; [lia|]. split; [lia|]. split; [lia|].
  apply (edge_directions_differ 100 300); lia.
Defined.

(** ** Whole runs *)

Lemma count_instrumented_all (ds : list Decision) :
  Forall (fun d => exists cur_loc, d = Instrumented cur_loc) ds ->
  count_instrumented ds = List.length ds.
Proof.
  induction 1 as [|d ds [c ->] _ IH]; simpl; [reflexivity | now rewrite IH].
Qed.

(** X16: with neither AFL_INST_WHITELIST nor AFL_INST_RATIO set, the
    compilation goes through and every block of every function is
    instrumented: the number of instrumented blocks is the number of
    blocks of the module. *)
Theorem default_run_instruments_every_block (env : Env) (g : Rand)
    (M : Module) :
  getenv env "AFL_INST_WHITELIST" = None ->
  getenv env "AFL_INST_RATIO" = None ->
  returned (run_pass env g M) = Ok true /\
  Forall (fun d => exists cur_loc, d = Instrumented cur_loc)
         (decisions (run_pass env g M)) /\
  count_instrumented (decisions (run_pass env g M))
    = List.length (module_blocks M).
Proof.
  intros Hwl Hratio.
  assert (Hnew : AFLCoverage_new env = Ok (mkAFLCoverage [])).
  { unfold AFLCoverage_new. now rewrite Hwl. }
  assert (Hr : decide_inst_ratio env = Ok 100).
  { unfold decide_inst_ratio. now rewrite Hratio. }
  unfold run_pass. rewrite Hnew.
  destruct (runOnModule_decisions (mkAFLCoverage []) env g M 100
              (fun _ d => exists cur_loc, d = Instrumented cur_loc) Hr)
    as [Hret Hall].
  { intros BB st.
    pose proof (R_range 100 (ls_rand st) ltac:(lia)) as Hdraw.
    destruct (instrument_block_cases (mkAFLCoverage []) 100 BB st)
      as [[Hf _]|[[_ [Hle _]]|[_ [_ ->]]]].
    - discriminate Hf.
    - lia.
    - unfold decision_of; cbn [fst snd]. eauto. }
  apply Forall2_right in Hall.
  split; [exact Hret|]. split; [exact Hall|].
  rewrite (count_instrumented_all _ Hall).
  apply (runOnModule_shape (mkAFLCoverage []) env g M 100 Hr).
Qed.

Lemma default_run_instruments_every_block_witness :
  getenv (env_of [] []) "AFL_INST_WHITELIST" = None /\
  getenv (env_of [] []) "AFL_INST_RATIO" = None /\
  count_instrumented
    (decisions (run_pass (env_of [] []) counting_rand
                  (mkModule [] [[block_at MDNull; block_at MDNull];
                                [block_at MDNull]] 1)))
  = 3%nat.
Proof.
  split; [reflexivity|]. split; [reflexivity|].
  apply (default_run_instruments_every_block (env_of [] []) counting_rand
           (mkModule [] [[block_at MDNull; block_at MDNull];
                         [block_at MDNull]] 1)); reflexivity.
Defined.

Lemma instrument_blocks_all_rejected (pass : AFLCoverage) (inst_ratio : Z)
    (BBs : list BasicBlock) (st : LoopState) :
  Forall (fun BB => passes_whitelist pass (block_loc BB) = false) BBs ->
  instrument_blocks pass inst_ratio BBs st
  = (BBs, repeat NotWhitelisted (List.length BBs), st).
Proof.
  induction 1 as [|BB rest Hb _ IH]; simpl; [reflexivity|].
  rewrite (instrument_block_skipped _ _ _ _ Hb), IH. reflexivity.
Qed.

Lemma instrument_functions_all_rejected (pass : AFLCoverage) (inst_ratio : Z)
    (Fs : list Function) (st : LoopState) :
  Forall (fun BB => passes_whitelist pass (block_loc BB) = false)
         (List.concat Fs) ->
  instrument_functions pass inst_ratio Fs st
  = (Fs, repeat NotWhitelisted (List.length (List.concat Fs)), st).
Proof.
  induction Fs as [|F rest IH]; simpl; intros H; [reflexivity|].
  apply Forall_app in H. destruct H as [HF Hrest].
  rewrite (instrument_blocks_all_rejected _ _ _ _ HF), (IH Hrest).
  rewrite List.length_app, repeat_app. reflexivity.
Qed.

Lemma count_instrumented_rejected (n : nat) :
  count_instrumented (repeat NotWhitelisted n) = 0%nat.
Proof. induction n; simpl; auto. Qed.

(** X17: when no block of the module passes the whitelist filter, the
    pass still succeeds but instruments nothing: the functions are left exactly as
    they were, no random number is drawn, only the two globals are
    declared, and on a terminal without AFL_QUIET the warning that no
    target was found is printed. *)
Theorem rejected_module_is_left_alone (pass : AFLCoverage) (env : Env)
    (g : Rand) (M : Module) (inst_ratio : Z) :
  decide_inst_ratio env = Ok inst_ratio ->
  Forall (fun BB => passes_whitelist pass (block_loc BB) = false)
         (module_blocks M) ->
  let out := runOnModule pass env g M in
  returned out = Ok true /\
  mod_functions (out_module out) = mod_functions M /\
  out_rand out = g /\
  count_instrumented (decisions out) = 0%nat /\
  (isatty env 2 = true -> getenv env "AFL_QUIET" = None ->
   printed out = [Banner; NoTargets]).
Proof.
  intros Hr Hall out. subst out.
  pose proof (runOnModule_printed pass env g M inst_ratio Hr) as Hrep.
  cbv zeta in Hrep. destruct Hrep as [Hret Hprint].
  unfold runOnModule in *. rewrite Hr in *.
  rewrite (instrument_functions_all_rejected _ _ _ _ Hall) in *.
  cbn [returned out_module mod_functions out_rand decisions ls_rand printed
       inst_blocks] in *.
  rewrite count_instrumented_rejected in *.
  repeat split.
  intros Htty Hq. rewrite Hprint, Htty, Hq. reflexivity.
Qed.

Lemma rejected_module_is_left_alone_witness :
  decide_inst_ratio (env_of [] []) = Ok 100 /\
  Forall (fun BB => passes_whitelist (mkAFLCoverage ["a.c"]) (block_loc BB)
                    = false)
         (module_blocks (mkModule [] [[block_at MDNull]] 1)) /\
  mod_functions
    (out_module (runOnModule (mkAFLCoverage ["a.c"]) (env_of [] [])
                   counting_rand (mkModule [] [[block_at MDNull]] 1)))
  = [[block_at MDNull]].
Proof.
  assert (H : Forall (fun BB => passes_whitelist (mkAFLCoverage ["a.c"])
                                  (block_loc BB) = false)
                (module_blocks (mkModule [] [[block_at MDNull]] 1))).
  { constructor; [reflexivity | constructor]. }
  split; [reflexivity|]. split; [exact H|].
  apply (rejected_module_is_left_alone (mkAFLCoverage ["a.c"]) (env_of [] [])
           counting_rand (mkModule [] [[block_at MDNull]] 1) 100 eq_refl H).
Defined.

(** X18: every decimal numeral from 1 to 100, written without sign or
    padding, is accepted as the ratio it denotes. *)
Theorem decimal_ratio_is_accepted (env : Env) (n : nat) :
  (1 <= n <= 100)%nat ->
  getenv env "AFL_INST_RATIO"
    = Some (DecimalString.NilEmpty.string_of_uint (Nat.to_uint n)) ->
  decide_inst_ratio env = Ok (Z.of_nat n).
Proof.
  intros Hn Henv. unfold decide_inst_ratio. rewrite Henv. clear Henv.
  assert (Hall : forallb
            (fun n =>
               match decide_inst_ratio
                       (env_of [("AFL_INST_RATIO",
                                 DecimalString.NilEmpty.string_of_uint
                                   (Nat.to_uint n))] [])
               with
               | Ok r => Z.eqb r (Z.of_nat n)
               | Fatal _ => false
               end) (seq 1 100) = true) by (vm_compute; reflexivity).
  rewrite forallb_forall in Hall.
  specialize (Hall n ltac:(apply in_seq; lia)).
  unfold decide_inst_ratio in Hall.
  cbn [getenv env_of lookup] in Hall. rewrite String.eqb_refl in Hall.
  destruct (sscanf_u _) as [v|]; [|discriminate].
  destruct ((v =? 0) || (100 <? v)); [discriminate|].
  apply Z.eqb_eq in Hall. now subst.
Qed.

Lemma decimal_ratio_is_accepted_witness :
  (1 <= 42 <= 100)%nat /\
  decide_inst_ratio (env_of [("AFL_INST_RATIO", "42")] []) = Ok 42.
Proof.
  split; [lia|].
  apply (decimal_ratio_is_accepted (env_of [("AFL_INST_RATIO", "42")] []) 42).
  - lia.
  - reflexivity.
Defined.

Lemma scan_digits_trailing (digits : string) (c : ascii) (rest : string) :
  forall acc seen v,
    digit_value c = None ->
    scan_digits digits acc seen = Some v ->
    scan_digits (digits ++ String c rest) acc seen = Some v.
Proof.
  induction digits as [|d digits IH]; intros acc seen v Hc H; simpl in *.
  - rewrite Hc. exact H.
  - destruct (digit_value d); [now apply IH | exact H].
Qed.

Lemma skip_space_trailing (s t : string) (c : ascii) (r : string) :
  skip_space s = String c r -> skip_space (s ++ t) = String c (r ++ t).
Proof.
  induction s as [|a s IH]; simpl; [discriminate|].
  destruct (isspace a).
  - exact IH.
  - intros H; inversion H; subst. reflexivity.
Qed.

(** X19: what follows the number in AFL_INST_RATIO is not looked at: a
    value that is accepted is accepted with the same ratio when any text
    that does not start with a digit is appended to it. *)
Theorem text_after_ratio_is_ignored (env env' : Env) (str : string)
    (c : ascii) (rest : string) (inst_ratio : Z) :
  getenv env "AFL_INST_RATIO" = Some str ->
  getenv env' "AFL_INST_RATIO" = Some (str ++ String c rest) ->
  digit_value c = None ->
  decide_inst_ratio env = Ok inst_ratio ->
  decide_inst_ratio env' = Ok inst_ratio.
Proof.
  unfold decide_inst_ratio. intros -> -> Hc.
  assert (Hs : forall v, sscanf_u str = Some v ->
                         sscanf_u (str ++ String c rest) = Some v).
  { unfold sscanf_u. intros v.
    destruct (skip_space str) as [|a r] eqn:E; [discriminate|].
    rewrite (skip_space_trailing _ (String c rest) _ _ E).
    destruct (Ascii.eqb a "-" || Ascii.eqb a "+").
    - destruct (scan_digits r 0 false) as [w|] eqn:Ew; [|discriminate].
      now rewrite (scan_digits_trailing _ _ _ _ _ _ Hc Ew).
    - destruct (scan_digits (String a r) 0 false) as [w|] eqn:Ew;
        [|discriminate].
      change (String a (r ++ String c rest))
        with (String a r ++ String c rest).
      now rewrite (scan_digits_trailing _ _ _ _ _ _ Hc Ew). }
  destruct (sscanf_u str) as [v|]; [|discriminate].
  rewrite (Hs v eq_refl). trivial.
Qed.

Lemma text_after_ratio_is_ignored_witness :
  decide_inst_ratio (env_of [("AFL_INST_RATIO", "50")] []) = Ok 50 /\
  decide_inst_ratio (env_of [("AFL_INST_RATIO", "50 percent")] []) = Ok 50.
Proof.
  split; [reflexivity|].
  apply (text_after_ratio_is_ignored
           (env_of [("AFL_INST_RATIO", "50")] [])
           (env_of [("AFL_INST_RATIO", "50 percent")] [])
           "50" " " "percent" 50); reflexivity.
Defined.

(** X20: from the file to the filter.  With a whitelist file made of the
    lines [ls] and, after the last newline, of [last], a block whose file
    name [f] was resolved is eligible exactly when one of the lines, or
    [last] when it is not empty, is a suffix of [f]. *)
Theorem eligible_iff_suffix_of_a_line (env : Env) (path : string)
    (ls : list string) (last : string) (Loc : DebugLoc) (f : string) :
  getenv env "AFL_INST_WHITELIST" = Some path ->
  file_content env path = Some (terminated_lines ls ++ last) ->
  Forall (fun l => no_newline l = true) ls ->
  no_newline last = true ->
  terminated_lines ls ++ last <> EmptyString ->
  isUnknown Loc = false ->
  fst (instLocation Loc) = f ->
  f <> EmptyString ->
  exists pass,
    AFLCoverage_new env = Ok pass /\
    (passes_whitelist pass Loc = true <->
     exists s, (In s ls \/ (s = last /\ last <> EmptyString)) /\
               is_suffix s f).
Proof.
  intros Henv Hfile Hls Hlast Hne Hk Hf Hfe.
  exists (mkAFLCoverage
            (load_whitelist
               (mkStream (terminated_lines ls ++ last) false false))).
  split.
  { unfold AFLCoverage_new, ifstream_open. rewrite Henv, Hfile. reflexivity. }
  rewrite (load_whitelist_terminated ls last Hls Hlast).
  unfold passes_whitelist. cbn [myWhitelist].
  assert (Hnonempty : empty_list (ls ++ (if empty last then [] else [last]))
                      = false).
  { destruct ls as [|l ls']; [|reflexivity].
    destruct last; [|reflexivity]. simpl in Hne. congruence. }
  rewrite Hnonempty. cbn [negb].
  rewrite (instrumentBlock_resolved _ _ f Hk Hf Hfe), whitelist_scan_true.
  split.
  - intros [s [Hin Hm]]. exists s. split; [|now apply entry_matches_suffix].
    apply in_app_or in Hin. destruct Hin as [Hin|Hin]; [auto|].
    destruct last; simpl in Hin; [contradiction|].
    destruct Hin as [<-|[]]. right. split; [reflexivity | discriminate].
  - intros [s [Hin Hm]]. exists s. split; [|now apply entry_matches_suffix].
    apply in_or_app. destruct Hin as [Hin|[-> Hl]]; [auto|].
    right. destruct last; [congruence|]. left; reflexivity.
Qed.

Lemma eligible_iff_suffix_of_a_line_witness :
  Forall (fun l => no_newline l = true) ["lib/a.c"] /\
  isUnknown (MDLocation 4 "src/b.c" MDNull) = false /\
  exists pass,
    AFLCoverage_new
      (env_of [("AFL_INST_WHITELIST", "wl.txt")]
         [("wl.txt", terminated_lines ["lib/a.c"] ++ "b.c")]) = Ok pass /\
    (passes_whitelist pass (MDLocation 4 "src/b.c" MDNull) = true <->
     exists s, (In s ["lib/a.c"] \/ (s = "b.c" /\ "b.c" <> EmptyString)) /\
               is_suffix s "src/b.c").
Proof.
  assert (H : Forall (fun l => no_newline l = true) ["lib/a.c"])
    by (repeat constructor).
  split; [exact H|]. split; [reflexivity|].
  apply (eligible_iff_suffix_of_a_line
           (env_of [("AFL_INST_WHITELIST", "wl.txt")]
              [("wl.txt", terminated_lines ["lib/a.c"] ++ "b.c")])
           "wl.txt" ["lib/a.c"] "b.c" (MDLocation 4 "src/b.c" MDNull)
           "src/b.c" eq_refl eq_refl H eq_refl);
    try reflexivity; discriminate.
Defined.
